(** * Drift checker: the comparison engine of [pkg/engine] and [pkg/common]

    A shallow embedding of the Go comparison engine: the per-pair comparators
    (the typed [compareInstances] and the older [reflect.DeepEqual]-based
    [CompareInstances]), the helpers of [pkg/common] they call, and the
    worker-pool dispatcher [CompareAllInstances], the latter as a transition
    system over goroutine states and unbuffered channels.  The comparator is
    embedded twice: over values, and over a store with pointers and backing
    arrays, to state what the engine leaves untouched.

    In the first embedding Go values are modelled as follows.
    - [string] is Rocq's [string] (a sequence of bytes); Go compares strings
      bytewise, which is [String.le].
    - A slice value is an [option (list A)]: [None] is the nil slice and
      [Some l] a non-nil slice of elements [l]; [len] of either is the length
      of [elems].
    - A [map[string]string] value is an [option (gmap string string)], [None]
      being the nil map.
    - [map[string]bool] used as a filter is only read ([len] and index), so
      a nil filter and an empty one are the same [gmap string bool].
    - The [any] stored in a [FieldDiff] is a tagged union of the four dynamic
      types the engine ever stores.

    Beside the engine, the file embeds the helpers of [pkg/common], the
    parsers of [pkg/terraform], the conversion of [pkg/aws], the filter
    built by [cmd] and the older dispatcher, with what is proved of them
    at the end. *)

From stdpp Require Import base gmap strings list sorting relations.

Open Scope string_scope.
Open Scope list_scope.
Import (notations) Stdlib.Strings.Ascii.

(** ** pkg/common: types *)

Module common.

Record BlockDeviceMapping := {
  DeviceName : string;
  VolumeID : string;
}.

Record EC2Instance := {
  InstanceID : string;
  InstanceType : string;
  ImageID : string;
  KeyName : string;
  State : string;
  AvailabilityZone : string;
  PrivateIPAddress : string;
  PublicIPAddress : string;
  SubnetID : string;
  VpcID : string;
  SecurityGroups : option (list string);
  Tags : option (gmap string string);
  BlockDeviceMappings : option (list BlockDeviceMapping);
  IamInstanceProfile : string;
  Monitoring : bool;
  Architecture : string;
  VirtualizationType : string;
}.

(** The dynamic values the engine boxes into [any]. *)
Inductive any :=
| AString (s : string)
| ABool (b : bool)
| AMap (m : option (gmap string string))
| ASlice (l : option (list string)).

(** [FieldDiff] with its two [any] fields. *)
Record FieldDiff := {
  AWS : any;
  Terraform : any;
}.

(** [DriftResult]; the projections carry the names of the JSON tags, since
    [InstanceID] is taken by [EC2Instance]. *)
Record DriftResult := {
  instance_id : string;
  drift_detected : bool;
  differences : gmap string FieldDiff;
}.

#[global] Instance BlockDeviceMapping_eq_dec : EqDecision BlockDeviceMapping.
Proof. solve_decision. Defined.
#[global] Instance any_eq_dec : EqDecision any.
Proof. solve_decision. Defined.
#[global] Instance FieldDiff_eq_dec : EqDecision FieldDiff.
Proof. solve_decision. Defined.
#[global] Instance DriftResult_eq_dec : EqDecision DriftResult.
Proof. solve_decision. Defined.

(** Elements of a slice value; the nil slice has none. *)
Definition elems {A} (s : option (list A)) : list A := default [] s.

(** Go's [len] on slices. *)
Definition len {A} (s : option (list A)) : nat := length (elems s).

(** [FlattenBlockDevices]: the early return hands back the empty non-nil
    slice; otherwise one string per device, in order. *)
Definition FlattenBlockDevices (devices : option (list BlockDeviceMapping))
  : option (list string) :=
  if bool_decide (len devices = 0) then Some []
  else Some ((λ d, DeviceName d +:+ "|" +:+ VolumeID d) <$> elems devices).

(** [ToMap]: every listed name is set to [true]. *)
Definition ToMap (l : list string) : gmap string bool :=
  foldl (λ m item, <[item := true]> m) ∅ l.

(** [DefaultDriftAttributes]. *)
Definition DefaultDriftAttributes : list string :=
  [ "instance_type"; "tags"; "security_groups"; "subnet_id"; "image_id";
    "key_name"; "monitoring"; "iam_instance_profile"; "architecture";
    "virtualization_type"; "block_device_mappings" ].

End common.

Import common.

(** ** Go built-ins and library functions used by the engine *)

Module go.

(** [append(s, xs...)] on slice values.  Appending nothing returns [s]
    itself, so a nil [s] stays nil; otherwise the result is non-nil. *)
Definition append {A} (s xs : option (list A)) : option (list A) :=
  match s with
  | None => if bool_decide (len xs = 0) then None else Some (elems xs)
  | Some l => Some (l ++ elems xs)
  end.

(** [sort.Strings]: increasing bytewise order.  The order is total, so the
    sorted sequence does not depend on the sorting algorithm. *)
Definition sort_Strings (s : option (list string)) : option (list string) :=
  merge_sort String.le <$> s.

(** [slices.Equal]: same length and equal elements; nil and empty are
    equal. *)
Definition slices_Equal (a b : option (list string)) : bool :=
  bool_decide (elems a = elems b).

(** [reflect.DeepEqual] on string maps: both nil or both non-nil, and the
    same entries. *)
Definition DeepEqual_map (a b : option (gmap string string)) : bool :=
  match a, b with
  | None, None => true
  | Some m1, Some m2 => bool_decide (m1 = m2)
  | _, _ => false
  end.

(** [reflect.DeepEqual] on string slices: both nil or both non-nil, and
    the same elements. *)
Definition DeepEqual_slice (a b : option (list string)) : bool :=
  match a, b with
  | None, None => true
  | Some l1, Some l2 => bool_decide (l1 = l2)
  | _, _ => false
  end.

(** [reflect.DeepEqual] on boxed values: values of distinct dynamic types
    are never deeply equal. *)
Definition DeepEqual (a b : any) : bool :=
  match a, b with
  | AString s1, AString s2 => bool_decide (s1 = s2)
  | ABool b1, ABool b2 => bool_decide (b1 = b2)
  | AMap m1, AMap m2 => DeepEqual_map m1 m2
  | ASlice l1, ASlice l2 => DeepEqual_slice l1 l2
  | _, _ => false
  end.

(** Conversion of a comparable value to [any] at an assignment. *)
Class Boxed (T : Type) := box : T → any.
#[global] Instance string_boxed : Boxed string := AString.
#[global] Instance bool_boxed : Boxed bool := ABool.

End go.

Import go.

(** ** pkg/engine: the per-pair comparators *)

Module engine.

(** [filter[field]]: a missing key reads as [false]. *)
Definition index (filter : gmap string bool) (field : string) : bool :=
  default false (filter !! field).

(** The closure [shouldCompare] of both comparators. *)
Definition shouldCompare (filter : gmap string bool) (field : string) : bool :=
  bool_decide (size filter = 0) || index filter field.

(** The guard [len(filter) > 0 && !filter[field]] of the typed helpers. *)
Definition filtered_out (filter : gmap string bool) (field : string) : bool :=
  bool_decide (0 < size filter) && negb (index filter field).

(** [compareField]: the output map is threaded through. *)
Definition compareField {T} `{EqDecision T, Boxed T} (field : string) (a b : T)
    (filter : gmap string bool) (out : gmap string FieldDiff)
  : gmap string FieldDiff :=
  if filtered_out filter field then out
  else if bool_decide (a ≠ b)
       then <[field := {| AWS := box a; Terraform := box b |}]> out
       else out.

(** [compareMap]. *)
Definition compareMap (field : string) (a b : option (gmap string string))
    (filter : gmap string bool) (out : gmap string FieldDiff)
  : gmap string FieldDiff :=
  if filtered_out filter field then out
  else if negb (DeepEqual_map a b)
       then <[field := {| AWS := AMap a; Terraform := AMap b |}]> out
       else out.

(** [compareSlice]: copies, sorts the copies, stores the sorted copies. *)
Definition compareSlice (field : string) (a b : option (list string))
    (filter : gmap string bool) (out : gmap string FieldDiff)
  : gmap string FieldDiff :=
  if filtered_out filter field then out
  else
    let sa := sort_Strings (append None a) in
    let sb := sort_Strings (append None b) in
    if negb (slices_Equal sa sb)
    then <[field := {| AWS := ASlice sa; Terraform := ASlice sb |}]> out
    else out.

(** [compareInstances], the typed comparator. *)
Definition compareInstances (awsInst tfInst : EC2Instance)
    (filter : gmap string bool) : DriftResult :=
  let d0 : gmap string FieldDiff := ∅ in
  let d1 := compareField "instance_type" (InstanceType awsInst) (InstanceType tfInst) filter d0 in
  let d2 := compareField "image_id" (ImageID awsInst) (ImageID tfInst) filter d1 in
  let d3 := compareField "key_name" (KeyName awsInst) (KeyName tfInst) filter d2 in
  let d4 := compareField "subnet_id" (SubnetID awsInst) (SubnetID tfInst) filter d3 in
  let d5 := compareField "vpc_id" (VpcID awsInst) (VpcID tfInst) filter d4 in
  let d6 := compareField "iam_instance_profile"
              (IamInstanceProfile awsInst) (IamInstanceProfile tfInst) filter d5 in
  let d7 := compareField "monitoring" (Monitoring awsInst) (Monitoring tfInst) filter d6 in
  let d8 := compareField "architecture" (Architecture awsInst) (Architecture tfInst) filter d7 in
  let d9 := compareField "virtualization_type"
              (VirtualizationType awsInst) (VirtualizationType tfInst) filter d8 in
  let d10 :=
    if shouldCompare filter "tags" && negb (DeepEqual_map (Tags awsInst) (Tags tfInst))
    then compareMap "tags" (Tags awsInst) (Tags tfInst) filter d9
    else d9 in
  let d11 :=
    if shouldCompare filter "security_groups" then
      let awsSg := sort_Strings (append (Some []) (SecurityGroups awsInst)) in
      let tfSg := sort_Strings (append (Some []) (SecurityGroups tfInst)) in
      if negb (slices_Equal awsSg tfSg)
      then compareSlice "security_groups" awsSg tfSg filter d10
      else d10
    else d10 in
  let d12 :=
    if shouldCompare filter "block_device_mappings" then
      let awsBdm := sort_Strings (FlattenBlockDevices (BlockDeviceMappings awsInst)) in
      let tfBdm := sort_Strings (FlattenBlockDevices (BlockDeviceMappings tfInst)) in
      if negb (slices_Equal awsBdm tfBdm)
      then compareSlice "block_device_mappings" awsBdm tfBdm filter d11
      else d11
    else d11 in
  {| instance_id := InstanceID awsInst;
     drift_detected := bool_decide (0 < size d12);
     differences := d12 |}.

(** The closure [compare] of the older comparator. *)
Definition compare (filter : gmap string bool) (field : string) (a b : any)
    (out : gmap string FieldDiff) : gmap string FieldDiff :=
  if shouldCompare filter field && negb (DeepEqual a b)
  then <[field := {| AWS := a; Terraform := b |}]> out
  else out.

(** [CompareInstances], the older comparator of [engine.go]. *)
Definition CompareInstances (awsInst tfInst : EC2Instance)
    (filter : gmap string bool) : DriftResult :=
  let cmp := compare filter in
  let d0 : gmap string FieldDiff := ∅ in
  let d1 := cmp "instance_type" (AString (InstanceType awsInst)) (AString (InstanceType tfInst)) d0 in
  let d2 := cmp "image_id" (AString (ImageID awsInst)) (AString (ImageID tfInst)) d1 in
  let d3 := cmp "key_name" (AString (KeyName awsInst)) (AString (KeyName tfInst)) d2 in
  let d4 := cmp "subnet_id" (AString (SubnetID awsInst)) (AString (SubnetID tfInst)) d3 in
  let d5 := cmp "vpc_id" (AString (VpcID awsInst)) (AString (VpcID tfInst)) d4 in
  let d6 := cmp "iam_instance_profile"
              (AString (IamInstanceProfile awsInst)) (AString (IamInstanceProfile tfInst)) d5 in
  let d7 := cmp "monitoring" (ABool (Monitoring awsInst)) (ABool (Monitoring tfInst)) d6 in
  let d8 := cmp "architecture" (AString (Architecture awsInst)) (AString (Architecture tfInst)) d7 in
  let d9 := cmp "virtualization_type"
              (AString (VirtualizationType awsInst)) (AString (VirtualizationType tfInst)) d8 in
  let d10 :=
    if shouldCompare filter "tags" && negb (DeepEqual_map (Tags awsInst) (Tags tfInst))
    then cmp "tags" (AMap (Tags awsInst)) (AMap (Tags tfInst)) d9
    else d9 in
  let d11 :=
    if shouldCompare filter "security_groups" then
      let awsSg := sort_Strings (append (Some []) (SecurityGroups awsInst)) in
      let tfSg := sort_Strings (append (Some []) (SecurityGroups tfInst)) in
      if negb (slices_Equal awsSg tfSg)
      then cmp "security_groups" (ASlice awsSg) (ASlice tfSg) d10
      else d10
    else d10 in
  let d12 :=
    if shouldCompare filter "block_device_mappings" then
      let awsBdm := sort_Strings (FlattenBlockDevices (BlockDeviceMappings awsInst)) in
      let tfBdm := sort_Strings (FlattenBlockDevices (BlockDeviceMappings tfInst)) in
      if negb (slices_Equal awsBdm tfBdm)
      then cmp "block_device_mappings" (ASlice awsBdm) (ASlice tfBdm) d11
      else d11
    else d11 in
  {| instance_id := InstanceID awsInst;
     drift_detected := bool_decide (0 < size d12);
     differences := d12 |}.

End engine.

Import engine.

(** ** pkg/engine: the dispatcher [CompareAllInstances]

    The function starts [maxWorkers] worker goroutines, a feeder goroutine
    and a closer goroutine, and collects from [resultsCh] in the calling
    goroutine.  Both channels are unbuffered, so a send and its receive are
    one joint step.  A state records where each goroutine stands:
    - the context ([true] once [ctx.Done()] is closed);
    - the feeder: the instances it has still to send on [tasks], or that it
      has closed [tasks];
    - each worker: blocked in the [select], blocked in a send on
      [resultsCh] with the result it has computed, or returned;
    - whether [resultsCh] is closed;
    - the caller: still ranging over [resultsCh] with the results appended
      so far, or returned with the final slice.
    A send on a closed channel is the one run-time panic the code could
    raise; it has a state of its own.  Elements of the two input slices are
    pointers to instances, taken to be non-nil. *)

Module dispatcher.

Definition maxWorkers : nat := 10.

(** The lookup table built from the Terraform instances: a later instance
    overwrites an earlier one with the same identifier. *)
Definition build_tfMap (tfInstances : list EC2Instance) : gmap string EC2Instance :=
  foldl (λ tfMap tfInst, <[InstanceID tfInst := tfInst]> tfMap) ∅ tfInstances.

(** The result a worker sends when the table has no entry. *)
Definition missing_in_terraform (awsInst : EC2Instance) : DriftResult :=
  {| instance_id := InstanceID awsInst;
     drift_detected := true;
     differences :=
       {[ "terraform_state" := {| AWS := AString "exists"; Terraform := AString "missing" |} ]} |}.

(** The result the older [CompareAllInstances] of [engine.go] appends in
    the same case; it differs in the reserved field name only. *)
Definition missing_in_terraform_legacy (awsInst : EC2Instance) : DriftResult :=
  {| instance_id := InstanceID awsInst;
     drift_detected := true;
     differences :=
       {[ "terraform" := {| AWS := AString "exists"; Terraform := AString "missing" |} ]} |}.

(** What a worker computes between receiving [awsInst] and sending. *)
Definition handle (tfMap : gmap string EC2Instance) (filter : gmap string bool)
    (awsInst : EC2Instance) : DriftResult :=
  match tfMap !! InstanceID awsInst with
  | None => missing_in_terraform awsInst
  | Some tfInst => compareInstances awsInst tfInst filter
  end.

Inductive worker :=
| AtSelect
| AtSend (r : DriftResult)
| Returned.

Inductive feeder :=
| Feeding (rest : list EC2Instance)
| Closed.

Inductive collector :=
| Collecting (results : list DriftResult)
| Done (results : list DriftResult).

Inductive state :=
| St (ctx_done : bool) (tasks : feeder) (workers : list worker)
     (resultsCh_closed : bool) (main : collector)
| Panic.

Section steps.
Context (tfMap : gmap string EC2Instance) (filter : gmap string bool).

(** One step of one goroutine, or one rendezvous of two:
    - the feeder has sent everything and closes [tasks];
    - a worker in the [select] receives the next instance from the feeder
      and computes its result;
    - a worker in the [select] finds [tasks] closed and returns;
    - a worker in the [select] finds the context done and returns (when an
      instance is ready as well, Go picks either case);
    - a worker hands its result to the caller, who appends it, and goes
      back to the [select];
    - a worker sends on [resultsCh] after it was closed;
    - all workers have returned, [wg.Wait()] returns and the closer closes
      [resultsCh];
    - the caller's [range] loop ends on the closed channel and the caller
      returns [results]. *)
Inductive step : state → state → Prop :=
| feeder_close c ws cl m :
    step (St c (Feeding []) ws cl m) (St c Closed ws cl m)
| worker_receive c awsInst rest ws i cl m :
    ws !! i = Some AtSelect →
    step (St c (Feeding (awsInst :: rest)) ws cl m)
         (St c (Feeding rest) (<[i := AtSend (handle tfMap filter awsInst)]> ws) cl m)
| worker_tasks_closed c ws i cl m :
    ws !! i = Some AtSelect →
    step (St c Closed ws cl m) (St c Closed (<[i := Returned]> ws) cl m)
| worker_ctx_done f ws i cl m :
    ws !! i = Some AtSelect →
    step (St true f ws cl m) (St true f (<[i := Returned]> ws) cl m)
| worker_send c f ws i r rs :
    ws !! i = Some (AtSend r) →
    step (St c f ws false (Collecting rs))
         (St c f (<[i := AtSelect]> ws) false (Collecting (rs ++ [r])))
| worker_send_on_closed c f ws i r m :
    ws !! i = Some (AtSend r) →
    step (St c f ws true m) Panic
| closer_close c f ws m :
    Forall (λ w, w = Returned) ws →
    step (St c f ws false m) (St c f ws true m)
| collector_return c f ws rs :
    step (St c f ws true (Collecting rs)) (St c f ws true (Done rs)).

(** The environment cancels the context; this can happen at any time. *)
Inductive cancel : state → state → Prop :=
| cancel_ctx f ws cl m : cancel (St false f ws cl m) (St true f ws cl m).

Definition step_or_cancel (s s' : state) : Prop := step s s' ∨ cancel s s'.

End steps.

(** The state in which the goroutines start; [ctx_done] tells whether the
    context was cancelled before the call. *)
Definition start (ctx_done : bool) (awsInstances : list EC2Instance) : state :=
  St ctx_done (Feeding awsInstances) (replicate maxWorkers AtSelect) false (Collecting []).

Definition returned (s : state) : option (list DriftResult) :=
  match s with
  | St _ _ _ _ (Done rs) => Some rs
  | _ => None
  end.

(** [CompareAllInstances ctx awsInstances tfInstances filter] may return
    [rs]: some interleaving, with the context cancelled at any moment or
    never, ends with the caller returning [rs]. *)
Definition CompareAllInstances (ctx_done : bool) (awsInstances tfInstances : list EC2Instance)
    (filter : gmap string bool) (rs : list DriftResult) : Prop :=
  ∃ s, rtc (step_or_cancel (build_tfMap tfInstances) filter) (start ctx_done awsInstances) s
       ∧ returned s = Some rs.

(** The same with a context that is never cancelled. *)
Definition CompareAllInstances_uncancelled (awsInstances tfInstances : list EC2Instance)
    (filter : gmap string bool) (rs : list DriftResult) : Prop :=
  ∃ s, rtc (step (build_tfMap tfInstances) filter) (start false awsInstances) s
       ∧ returned s = Some rs.

End dispatcher.

Import dispatcher.

(** ** The engine over a store

    The per-pair comparator once more, with the data where Go keeps it: the
    instances are structs behind pointers, their slices point to backing
    arrays and their tag maps to map objects, all in one store.
    [sort.Strings] overwrites the backing array of its argument; [append]
    onto a slice without spare capacity allocates.  A slice is nil, the
    empty slice without backing array (as [[]string{}] or
    [make([]string, 0)]), or a whole backing array.  The map of differences
    is local to one call and is passed by value. *)

Module memory.

Definition addr := positive.

Inductive slice :=
| NilSlice
| EmptySlice
| Array (p : addr).

Record EC2Instance := {
  InstanceID : string;
  InstanceType : string;
  ImageID : string;
  KeyName : string;
  State : string;
  AvailabilityZone : string;
  PrivateIPAddress : string;
  PublicIPAddress : string;
  SubnetID : string;
  VpcID : string;
  SecurityGroups : slice;
  Tags : option addr;
  BlockDeviceMappings : slice;
  IamInstanceProfile : string;
  Monitoring : bool;
  Architecture : string;
  VirtualizationType : string;
}.

Inductive object :=
| OStrings (xs : list string)
| ODevices (ds : list BlockDeviceMapping)
| OTags (m : gmap string string)
| OInstance (i : EC2Instance).

Inductive any :=
| AString (s : string)
| ABool (b : bool)
| AMap (m : option addr)
| ASlice (s : slice).

Record FieldDiff := {
  AWS : any;
  Terraform : any;
}.

Record DriftResult := {
  instance_id : string;
  drift_detected : bool;
  differences : gmap string FieldDiff;
}.

Class Boxed (T : Type) := box : T → any.
#[global] Instance string_boxed : Boxed string := AString.
#[global] Instance bool_boxed : Boxed bool := ABool.

(** Computations over the store; [None] is a read through a pointer that
    is dangling or of the wrong type, which a Go program cannot perform. *)
Definition M (A : Type) : Type := gmap addr object → option (A * gmap addr object).

#[global] Instance M_ret : MRet M := λ A a h, Some (a, h).
#[global] Instance M_bind : MBind M := λ A B k m h,
  match m h with
  | Some (a, h') => k a h'
  | None => None
  end.

Definition fail {A} : M A := λ _, None.

Definition alloc (o : object) : M addr := λ h,
  let p := fresh (dom h) in Some (p, <[p := o]> h).

Definition load (p : addr) : M object := λ h,
  match h !! p with
  | Some o => Some (o, h)
  | None => None
  end.

Definition store (p : addr) (o : object) : M unit := λ h,
  match h !! p with
  | Some _ => Some ((), <[p := o]> h)
  | None => None
  end.

Definition strings_of (s : slice) : M (list string) :=
  match s with
  | NilSlice | EmptySlice => mret []
  | Array p => o ← load p; match o with OStrings xs => mret xs | _ => fail end
  end.

Definition devices_of (s : slice) : M (list BlockDeviceMapping) :=
  match s with
  | NilSlice | EmptySlice => mret []
  | Array p => o ← load p; match o with ODevices ds => mret ds | _ => fail end
  end.

Definition tags_of (t : option addr) : M (option (gmap string string)) :=
  match t with
  | None => mret None
  | Some p => o ← load p; match o with OTags m => mret (Some m) | _ => fail end
  end.

Definition instance_at (p : addr) : M EC2Instance :=
  o ← load p; match o with OInstance i => mret i | _ => fail end.

(** [append(s, src...)] for [s] without spare capacity: nothing to append
    returns [s]; otherwise the elements go to a new backing array. *)
Definition append (s src : slice) : M slice :=
  xs ← strings_of src;
  if bool_decide (length xs = 0) then mret s
  else old ← strings_of s; p ← alloc (OStrings (old ++ xs)); mret (Array p).

(** [sort.Strings]: in place. *)
Definition sort_Strings (s : slice) : M unit :=
  match s with
  | NilSlice | EmptySlice => mret ()
  | Array p => xs ← strings_of s; store p (OStrings (merge_sort String.le xs))
  end.

Definition slices_Equal (a b : slice) : M bool :=
  xs ← strings_of a; ys ← strings_of b; mret (bool_decide (xs = ys)).

Definition DeepEqual_map (a b : option addr) : M bool :=
  ma ← tags_of a; mb ← tags_of b; mret (go.DeepEqual_map ma mb).

(** The loop of [FlattenBlockDevices]. *)
Fixpoint flatten_loop (flat : slice) (devices : list BlockDeviceMapping) : M slice :=
  match devices with
  | [] => mret flat
  | d :: rest =>
      old ← strings_of flat;
      p ← alloc (OStrings (old ++ [DeviceName d +:+ "|" +:+ VolumeID d]));
      flatten_loop (Array p) rest
  end.

Definition FlattenBlockDevices (devices : slice) : M slice :=
  ds ← devices_of devices;
  if bool_decide (length ds = 0) then mret EmptySlice
  else flatten_loop EmptySlice ds.

Definition compareField {T} `{EqDecision T, Boxed T} (field : string) (a b : T)
    (filter : gmap string bool) (out : gmap string FieldDiff)
  : gmap string FieldDiff :=
  if filtered_out filter field then out
  else if bool_decide (a ≠ b)
       then <[field := {| AWS := box a; Terraform := box b |}]> out
       else out.

Definition compareMap (field : string) (a b : option addr)
    (filter : gmap string bool) (out : gmap string FieldDiff)
  : M (gmap string FieldDiff) :=
  if filtered_out filter field then mret out
  else
    eq ← DeepEqual_map a b;
    if negb eq then mret (<[field := {| AWS := AMap a; Terraform := AMap b |}]> out)
    else mret out.

Definition compareSlice (field : string) (a b : slice)
    (filter : gmap string bool) (out : gmap string FieldDiff)
  : M (gmap string FieldDiff) :=
  if filtered_out filter field then mret out
  else
    sa ← append NilSlice a;
    sb ← append NilSlice b;
    sort_Strings sa;;
    sort_Strings sb;;
    eq ← slices_Equal sa sb;
    if negb eq then mret (<[field := {| AWS := ASlice sa; Terraform := ASlice sb |}]> out)
    else mret out.

Definition compareInstances (awsInst tfInst : addr) (filter : gmap string bool)
  : M DriftResult :=
  a ← instance_at awsInst;
  t ← instance_at tfInst;
  let d0 : gmap string FieldDiff := ∅ in
  let d1 := compareField "instance_type" (InstanceType a) (InstanceType t) filter d0 in
  let d2 := compareField "image_id" (ImageID a) (ImageID t) filter d1 in
  let d3 := compareField "key_name" (KeyName a) (KeyName t) filter d2 in
  let d4 := compareField "subnet_id" (SubnetID a) (SubnetID t) filter d3 in
  let d5 := compareField "vpc_id" (VpcID a) (VpcID t) filter d4 in
  let d6 := compareField "iam_instance_profile"
              (IamInstanceProfile a) (IamInstanceProfile t) filter d5 in
  let d7 := compareField "monitoring" (Monitoring a) (Monitoring t) filter d6 in
  let d8 := compareField "architecture" (Architecture a) (Architecture t) filter d7 in
  let d9 := compareField "virtualization_type"
              (VirtualizationType a) (VirtualizationType t) filter d8 in
  d10 ← (if shouldCompare filter "tags" then
           eq ← DeepEqual_map (Tags a) (Tags t);
           if negb eq then compareMap "tags" (Tags a) (Tags t) filter d9 else mret d9
         else mret d9);
  d11 ← (if shouldCompare filter "security_groups" then
           awsSg ← append EmptySlice (SecurityGroups a);
           tfSg ← append EmptySlice (SecurityGroups t);
           sort_Strings awsSg;;
           sort_Strings tfSg;;
           eq ← slices_Equal awsSg tfSg;
           if negb eq then compareSlice "security_groups" awsSg tfSg filter d10
           else mret d10
         else mret d10);
  d12 ← (if shouldCompare filter "block_device_mappings" then
           awsBdm ← FlattenBlockDevices (BlockDeviceMappings a);
           tfBdm ← FlattenBlockDevices (BlockDeviceMappings t);
           sort_Strings awsBdm;;
           sort_Strings tfBdm;;
           eq ← slices_Equal awsBdm tfBdm;
           if negb eq then compareSlice "block_device_mappings" awsBdm tfBdm filter d11
           else mret d11
         else mret d11);
  mret {| instance_id := InstanceID a;
          drift_detected := bool_decide (0 < size d12);
          differences := d12 |}.

(** The work of one worker on one task, and of the workers on the tasks
    they receive, one task after the other: a worker writes only to what
    it has allocated, so the interleaving does not matter to the store. *)
Definition missing_in_terraform (a : EC2Instance) : DriftResult :=
  {| instance_id := InstanceID a;
     drift_detected := true;
     differences :=
       {[ "terraform_state" := {| AWS := AString "exists"; Terraform := AString "missing" |} ]} |}.

Definition handle (tfMap : gmap string addr) (filter : gmap string bool) (awsInst : addr)
  : M DriftResult :=
  a ← instance_at awsInst;
  match tfMap !! InstanceID a with
  | None => mret (missing_in_terraform a)
  | Some tfInst => compareInstances awsInst tfInst filter
  end.

Fixpoint build_tfMap (tfMap : gmap string addr) (tfInstances : list addr)
  : M (gmap string addr) :=
  match tfInstances with
  | [] => mret tfMap
  | tfInst :: rest =>
      t ← instance_at tfInst;
      build_tfMap (<[InstanceID t := tfInst]> tfMap) rest
  end.

Fixpoint handle_all (tfMap : gmap string addr) (filter : gmap string bool)
    (awsInstances : list addr) : M (list DriftResult) :=
  match awsInstances with
  | [] => mret []
  | awsInst :: rest =>
      r ← handle tfMap filter awsInst;
      rs ← handle_all tfMap filter rest;
      mret (r :: rs)
  end.

Definition CompareAllInstances (awsInstances tfInstances : list addr)
    (filter : gmap string bool) : M (list DriftResult) :=
  tfMap ← build_tfMap ∅ tfInstances;
  handle_all tfMap filter awsInstances.

End memory.

(** * The rest of the program

    The helpers of [pkg/common] the command line, the parser and the AWS
    client call, the two parsers of [pkg/terraform], the conversion of
    [pkg/aws], the filter of [cmd], the older dispatcher of [engine.go]
    and [cloneInstance] of the tests of the engine. *)

(** ** Go's package [strings], as far as [common] and [cmd] use it

    A Go string is a sequence of bytes, here a [string] of [Ascii.ascii]. *)

Module go_strings.

(** [strings.Split(s, sep)] for a separator of one byte: the parts between
    the separators, so one part more than there are separators. *)
Fixpoint Split (s : string) (sep : Ascii.ascii) : list string :=
  match s with
  | EmptyString => [""]
  | String c rest =>
      if decide (c = sep) then "" :: Split rest sep
      else match Split rest sep with
           | part :: parts => String c part :: parts
           | [] => [String c ""]
           end
  end.

(** [strings.Join]. *)
Fixpoint Join (parts : list string) (sep : string) : string :=
  match parts with
  | [] => ""
  | [part] => part
  | part :: rest => part +:+ sep +:+ Join rest sep
  end.

(** The UTF-8 encodings of the runes of [unicode.IsSpace]: U+0009 to
    U+000D, U+0020, U+0085, U+00A0, U+1680, U+2000 to U+200A, U+2028,
    U+2029, U+202F, U+205F and U+3000. *)
Definition white_space : list (list Ascii.ascii) :=
  fmap (M := list) Ascii.ascii_of_nat <$>
    ([ [9]; [10]; [11]; [12]; [13]; [32];
       [194; 133]; [194; 160];
       [225; 154; 128];
       [226; 128; 128]; [226; 128; 129]; [226; 128; 130]; [226; 128; 131];
       [226; 128; 132]; [226; 128; 133]; [226; 128; 134]; [226; 128; 135];
       [226; 128; 136]; [226; 128; 137]; [226; 128; 138];
       [226; 128; 168]; [226; 128; 169]; [226; 128; 175];
       [226; 129; 159];
       [227; 128; 128] ]%nat : list (list nat)).

(** [strings.TrimLeftFunc(s, unicode.IsSpace)]: the first rune is decoded
    and dropped while it is white space.  A string starts with a white
    space rune exactly when it starts with one of the encodings above (an
    invalid or cut encoding decodes to [utf8.RuneError], which is no white
    space); [n] bounds the number of runes dropped. *)
Fixpoint trim_left (n : nat) (s : list Ascii.ascii) : list Ascii.ascii :=
  match n with
  | 0 => s
  | S n =>
      match find (λ sp, bool_decide (sp `prefix_of` s)) white_space with
      | Some sp => trim_left n (drop (length sp) s)
      | None => s
      end
  end.

(** [strings.TrimRightFunc(s, unicode.IsSpace)], with the last rune; a
    string ends with a white space rune exactly when it ends with one of the
    encodings. *)
Fixpoint trim_right (n : nat) (s : list Ascii.ascii) : list Ascii.ascii :=
  match n with
  | 0 => s
  | S n =>
      match find (λ sp, bool_decide (sp `suffix_of` s)) white_space with
      | Some sp => trim_right n (take (length s - length sp) s)
      | None => s
      end
  end.

(** [strings.TrimSpace]: leading white space is removed, then trailing. *)
Definition TrimSpace (s : string) : string :=
  let bytes := String.list_ascii_of_string s in
  let l := trim_left (length bytes) bytes in
  String.string_of_list_ascii (trim_right (length l) l).

End go_strings.

Import go_strings.

(** ** Decoded JSON

    What [encoding/json] stores in an [interface{}]: nil, a [bool], a
    [float64], a [string], a [[]interface{}] or a [map[string]interface{}],
    the last two never nil.  The numbers are only ever formatted, so
    their type and [fmt]'s formatting of them are left open. *)

Module json.
Section values.
Context {number : Type} (format_number : number → string).

Inductive value :=
| JNull
| JBool (b : bool)
| JNumber (n : number)
| JString (s : string)
| JArray (l : list value)
| JObject (m : gmap string value).

(** [fmt.Sprintf("%v", v)]: a slice is printed as its elements between
    brackets, a map as its entries [key:value] in the order of the keys. *)
Fixpoint Sprintf_v (v : value) : string :=
  match v with
  | JNull => "<nil>"
  | JBool b => if b then "true" else "false"
  | JNumber n => format_number n
  | JString s => s
  | JArray l => "[" +:+ Join (Sprintf_v <$> l) " " +:+ "]"
  | JObject m =>
      "map["
      +:+ Join ((λ entry, entry.1 +:+ ":" +:+ entry.2)
                  <$> merge_sort (λ e1 e2, String.le e1.1 e2.1)
                        (map_to_list (Sprintf_v <$> m))) " "
      +:+ "]"
  end.

End values.
Arguments value : clear implicits.
End json.

Import json.

(** ** pkg/common: the helpers *)

Module common_helpers.
Section helpers.
Context {number : Type} (format_number : number → string).

(** [GetString]: a nil pointer reads as the empty string. *)
Definition GetString (s : option string) : string :=
  match s with
  | None => ""
  | Some str => str
  end.

Definition GetStringPointer (val : string) : option string := Some val.

Definition ToString (v : value number) : string :=
  match v with
  | JString str => str
  | _ => ""
  end.

Definition ToBool (v : value number) : bool :=
  match v with
  | JBool b => b
  | _ => false
  end.

(** [m[key]] on a [map[string]interface{}]: a missing key reads as nil. *)
Definition at_key (m : gmap string (value number)) (key : string) : value number :=
  default JNull (m !! key).

(** [ExtractBlockDevices]: [result] is made non-nil; the items that are
    not objects are passed over. *)
Definition ExtractBlockDevices (v : value number) : option (list BlockDeviceMapping) :=
  let result := Some [] in
  match v with
  | JArray list =>
      foldl (λ result item,
               match item with
               | JObject m =>
                   append result
                     (Some [ {| DeviceName := ToString (at_key m "device_name");
                                VolumeID := ToString (at_key m "volume_id") |} ])
               | _ => result
               end) result list
  | _ => result
  end.

(** [ConvertToStringMap]: [result] is made non-nil; one entry per key. *)
Definition ConvertToStringMap (v : value number) : option (gmap string string) :=
  match v with
  | JObject rawMap => Some (Sprintf_v format_number <$> rawMap)
  | _ => Some ∅
  end.

(** [ConvertToStringSlice]: [result] starts as the nil slice. *)
Definition ConvertToStringSlice (v : value number) : option (list string) :=
  let result := None in
  match v with
  | JArray arr =>
      foldl (λ result v, append result (Some [Sprintf_v format_number v])) result arr
  | _ => result
  end.

End helpers.

(** [ParseCommaList]: [result] starts as the nil slice and grows by
    [append]. *)
Definition ParseCommaList (input : string) : option (list string) :=
  if decide (input = "") then None
  else
    foldl (λ result part,
             let trimmed := TrimSpace part in
             if decide (trimmed ≠ "") then append result (Some [trimmed]) else result)
          None (Split input ","%char).

End common_helpers.

Import common_helpers.

(** ** cmd: the filter built by [Run] *)

Module cmd.

(** The value of [attributeFilter] for the value of the flag
    [--attributes]. *)
Definition attributeFilter (attrInput : string) : gmap string bool :=
  let attrInput :=
    if decide (attrInput = "") then Join DefaultDriftAttributes "," else attrInput in
  ToMap (elems (ParseCommaList attrInput)).

End cmd.

Import cmd.

(** ** pkg/terraform: the parsers of the state file *)

Module terraform.

(** [common.TerraformState], decoded: an absent list is the nil slice, an
    absent [attributes] the nil map. *)
Record instance {number : Type} := {
  Attributes : option (gmap string (value number));
}.
Arguments instance : clear implicits.

Record resource {number : Type} := {
  Type_ : string;
  Name : string;
  Instances : option (list (instance number));
}.
Arguments resource : clear implicits.

Record TerraformState {number : Type} := {
  Resources : option (list (resource number));
}.
Arguments TerraformState : clear implicits.

(** The errors of [common] the parser returns. *)
Inductive error :=
| ErrStateFileNotProvided
| ErrInvalidStateFile
| ErrTerraformInstanceMissing.

(** What [os.ReadFile] and [json.Unmarshal] make of the path: the file
    cannot be read, its content cannot be decoded, or it is decoded. *)
Inductive file {number : Type} :=
| Unreadable
| Undecodable
| Decoded (state : TerraformState number).
Arguments file : clear implicits.

Section parser.
Context {number : Type} (format_number : number → string).

(** [attr[key]]: reading the nil map gives nil as well. *)
Definition attribute (attr : option (gmap string (value number))) (key : string)
  : value number :=
  match attr with
  | None => JNull
  | Some m => at_key m key
  end.

(** The [EC2Instance] built of one [attributes] object; [State] and
    [VpcID] are not set. *)
Definition ec2Inst (attr : option (gmap string (value number))) : EC2Instance :=
  {| InstanceID := ToString (attribute attr "id");
     InstanceType := ToString (attribute attr "instance_type");
     ImageID := ToString (attribute attr "ami");
     KeyName := ToString (attribute attr "key_name");
     State := "";
     AvailabilityZone := ToString (attribute attr "availability_zone");
     PrivateIPAddress := ToString (attribute attr "private_ip");
     PublicIPAddress := ToString (attribute attr "public_ip");
     SubnetID := ToString (attribute attr "subnet_id");
     VpcID := "";
     SecurityGroups :=
       ConvertToStringSlice format_number (attribute attr "vpc_security_group_ids");
     Tags := ConvertToStringMap format_number (attribute attr "tags");
     BlockDeviceMappings := ExtractBlockDevices (attribute attr "root_block_device");
     IamInstanceProfile := ToString (attribute attr "iam_instance_profile");
     Monitoring := ToBool (attribute attr "monitoring");
     Architecture := ToString (attribute attr "architecture");
     VirtualizationType := ToString (attribute attr "virtualization_type") |}.

(** The two nested loops over the resources and their instances. *)
Definition instances_of (state : TerraformState number) : option (list EC2Instance) :=
  foldl (λ instances res,
           if decide (Type_ res ≠ "aws_instance") then instances
           else foldl (λ instances inst,
                         append instances (Some [ec2Inst (Attributes inst)]))
                      instances (elems (Instances res)))
        None (elems (Resources state)).

(** [parseTerraformState], the instances and the error it returns. *)
Definition parseTerraformState (f : file number)
  : option (list EC2Instance) * option error :=
  match f with
  | Unreadable => (None, Some ErrStateFileNotProvided)
  | Undecodable => (None, Some ErrInvalidStateFile)
  | Decoded state =>
      if decide (len (Resources state) = 0) then (None, Some ErrTerraformInstanceMissing)
      else (instances_of state, None)
  end.

(** The older [ParseTerraformState] of [parser.go]; its errors wrap the
    cause, of which the kind is kept. *)
Inductive legacy_error :=
| FailedToRead
| FailedToUnmarshal.

Definition ParseTerraformState (f : file number)
  : option (list EC2Instance) * option legacy_error :=
  match f with
  | Unreadable => (None, Some FailedToRead)
  | Undecodable => (None, Some FailedToUnmarshal)
  | Decoded state => (instances_of state, None)
  end.

End parser.
End terraform.

(** ** pkg/aws: the conversion of the described instance

    The types of the AWS SDK, with the fields [GetInstanceFromClient]
    reads.  A pointer is an [option]; the enumerations are string types. *)

Module ec2types.

Record GroupIdentifier := { GroupId : option string }.
Record Tag := { Key : option string; Value : option string }.
Record EbsInstanceBlockDevice := { VolumeId : option string }.
Record InstanceBlockDeviceMapping := {
  DeviceName : option string;
  Ebs : option EbsInstanceBlockDevice;
}.
Record IamInstanceProfile := { Arn : option string }.
Record Monitoring := { State : string }.
Record Placement := { AvailabilityZone : option string }.
Record InstanceState := { Name : string }.

End ec2types.

Module ec2.

Record Instance := {
  InstanceId : option string;
  InstanceType : string;
  ImageId : option string;
  KeyName : option string;
  State : option ec2types.InstanceState;
  PrivateIpAddress : option string;
  PublicIpAddress : option string;
  SubnetId : option string;
  VpcId : option string;
  SecurityGroups : option (list ec2types.GroupIdentifier);
  Tags : option (list ec2types.Tag);
  BlockDeviceMappings : option (list ec2types.InstanceBlockDeviceMapping);
  IamInstanceProfile : option ec2types.IamInstanceProfile;
  Monitoring : option ec2types.Monitoring;
  Placement : option ec2types.Placement;
  Architecture : string;
  VirtualizationType : string;
}.

Record Reservation := { Instances : option (list Instance) }.

Record DescribeInstancesOutput := { Reservations : option (list Reservation) }.

End ec2.

Module aws.

(** The two values [DescribeInstances] returns: the output, which may be
    nil, and the error, here its message. *)
Definition response : Type := option ec2.DescribeInstancesOutput * option string.

(** [EC2Client]: the response to a request for [InstanceIds]. *)
Definition EC2Client : Type := list string → response.

(** The errors [GetInstanceFromClient] makes with [fmt.Errorf]. *)
Inductive error :=
| describe_instances (err : string)
| instance_not_found (instanceID : string).

(** The value and the error returned, or the run-time panic of a nil
    pointer dereference. *)
Inductive outcome :=
| Return (inst : option EC2Instance) (err : option error)
| Panic.

(** The three extraction loops. *)
Definition sgIDs (instance : ec2.Instance) : option (list string) :=
  foldl (λ sgIDs sg,
           match ec2types.GroupId sg with
           | Some id => append sgIDs (Some [id])
           | None => sgIDs
           end) None (elems (ec2.SecurityGroups instance)).

Definition tags (instance : ec2.Instance) : option (gmap string string) :=
  Some (foldl (λ tags tag,
                 match ec2types.Key tag, ec2types.Value tag with
                 | Some key, Some value => <[key := value]> tags
                 | _, _ => tags
                 end) ∅ (elems (ec2.Tags instance))).

Definition bdms (instance : ec2.Instance) : option (list BlockDeviceMapping) :=
  foldl (λ bdms mapping,
           let volumeID :=
             match ec2types.Ebs mapping with
             | Some ebs =>
                 match ec2types.VolumeId ebs with
                 | Some id => id
                 | None => ""
                 end
             | None => ""
             end in
           match ec2types.DeviceName mapping with
           | Some name => append bdms (Some [ {| DeviceName := name; VolumeID := volumeID |} ])
           | None => bdms
           end) None (elems (ec2.BlockDeviceMappings instance)).

Definition iamProfile (instance : ec2.Instance) : string :=
  match ec2.IamInstanceProfile instance with
  | Some profile =>
      match ec2types.Arn profile with
      | Some arn => arn
      | None => ""
      end
  | None => ""
  end.

Definition monitoringEnabled (instance : ec2.Instance) : bool :=
  match ec2.Monitoring instance with
  | Some monitoring =>
      if decide (ec2types.State monitoring ≠ "")
      then bool_decide (ec2types.State monitoring = "enabled")
      else false
  | None => false
  end.

Definition availabilityZone (instance : ec2.Instance) : string :=
  match ec2.Placement instance with
  | Some placement =>
      match ec2types.AvailabilityZone placement with
      | Some zone => zone
      | None => ""
      end
  | None => ""
  end.

(** The composite literal; [instance.State.Name] dereferences [State]. *)
Definition ec2Inst (instance : ec2.Instance) : option EC2Instance :=
  state ← ec2.State instance;
  Some {| InstanceID := GetString (ec2.InstanceId instance);
          InstanceType := ec2.InstanceType instance;
          ImageID := GetString (ec2.ImageId instance);
          KeyName := GetString (ec2.KeyName instance);
          common.State := ec2types.Name state;
          common.AvailabilityZone := availabilityZone instance;
          PrivateIPAddress := GetString (ec2.PrivateIpAddress instance);
          PublicIPAddress := GetString (ec2.PublicIpAddress instance);
          SubnetID := GetString (ec2.SubnetId instance);
          VpcID := GetString (ec2.VpcId instance);
          common.SecurityGroups := sgIDs instance;
          common.Tags := tags instance;
          common.BlockDeviceMappings := bdms instance;
          common.IamInstanceProfile := iamProfile instance;
          common.Monitoring := monitoringEnabled instance;
          common.Architecture := ec2.Architecture instance;
          common.VirtualizationType := ec2.VirtualizationType instance |}.

(** [GetInstanceFromClient]. *)
Definition GetInstanceFromClient (client : EC2Client) (instanceID : string) : outcome :=
  match client [instanceID] with
  | (_, Some err) => Return None (Some (describe_instances err))
  | (None, None) => Panic
  | (Some output, None) =>
      match elems (ec2.Reservations output) with
      | [] => Return None (Some (instance_not_found instanceID))
      | reservation :: _ =>
          match elems (ec2.Instances reservation) with
          | [] => Return None (Some (instance_not_found instanceID))
          | instance :: _ =>
              match ec2Inst instance with
              | Some inst => Return (Some inst) None
              | None => Panic
              end
          end
      end
  end.

End aws.

(** ** pkg/engine: the older dispatcher of [engine.go]

    The older [CompareAllInstances] has no worker pool and no context.  Its
    loop over the AWS instances appends the result for an instance missing
    in Terraform at once, and starts one goroutine per matched pair; each
    goroutine computes its result with [CompareInstances] and sends it on
    the unbuffered [resultsCh].  Only after the loop does the caller start
    the closer and receive, so when the first send can complete the loop
    has run to its end: a state holds the goroutines still to send, whether
    [resultsCh] is closed, and the caller as before. *)

Module legacy.

Inductive goroutine :=
| Sending (r : DriftResult)
| Finished.

Inductive state :=
| St (goroutines : list goroutine) (resultsCh_closed : bool) (main : collector)
| Panic.

(** One turn of the loop: [results] and the goroutines started so far. *)
Definition loop_body (tfMap : gmap string EC2Instance) (filter : gmap string bool)
    (acc : list DriftResult * list goroutine) (awsInst : EC2Instance)
  : list DriftResult * list goroutine :=
  match tfMap !! InstanceID awsInst with
  | None => (acc.1 ++ [missing_in_terraform_legacy awsInst], acc.2)
  | Some tfInst => (acc.1, acc.2 ++ [Sending (CompareInstances awsInst tfInst filter)])
  end.

(** The state when the loop has ended. *)
Definition start (awsInstances tfInstances : list EC2Instance) (filter : gmap string bool)
  : state :=
  let after_loop := foldl (loop_body (build_tfMap tfInstances) filter) ([], []) awsInstances in
  St after_loop.2 false (Collecting after_loop.1).

(** A goroutine hands its result to the caller and finishes; a goroutine
    sends on the closed channel; all goroutines have finished and the
    closer closes [resultsCh]; the caller returns. *)
Inductive step : state → state → Prop :=
| goroutine_send gs i r rs :
    gs !! i = Some (Sending r) →
    step (St gs false (Collecting rs)) (St (<[i := Finished]> gs) false (Collecting (rs ++ [r])))
| goroutine_send_on_closed gs i r m :
    gs !! i = Some (Sending r) →
    step (St gs true m) Panic
| closer_close gs m :
    Forall (λ g, g = Finished) gs →
    step (St gs false m) (St gs true m)
| collector_return gs rs :
    step (St gs true (Collecting rs)) (St gs true (Done rs)).

Definition returned (s : state) : option (list DriftResult) :=
  match s with
  | St _ _ (Done rs) => Some rs
  | _ => None
  end.

Definition CompareAllInstances (awsInstances tfInstances : list EC2Instance)
    (filter : gmap string bool) (rs : list DriftResult) : Prop :=
  ∃ s, rtc step (start awsInstances tfInstances filter) s ∧ returned s = Some rs.

End legacy.

(** ** pkg/engine: [cloneInstance] of the tests *)

Module engine_test.

(** A copy with fresh collections, each of them non-nil. *)
Definition cloneInstance (i : EC2Instance) : EC2Instance :=
  {| InstanceID := InstanceID i; InstanceType := InstanceType i;
     ImageID := ImageID i; KeyName := KeyName i; State := State i;
     AvailabilityZone := AvailabilityZone i;
     PrivateIPAddress := PrivateIPAddress i; PublicIPAddress := PublicIPAddress i;
     SubnetID := SubnetID i; VpcID := VpcID i;
     SecurityGroups := append (Some []) (SecurityGroups i);
     Tags := Some (default ∅ (Tags i));
     BlockDeviceMappings := append (Some []) (BlockDeviceMappings i);
     IamInstanceProfile := IamInstanceProfile i; Monitoring := Monitoring i;
     Architecture := Architecture i; VirtualizationType := VirtualizationType i |}.

End engine_test.

Import engine_test.

(** * Definitions for the statements and their proofs *)

(** ** The comparators *)

(** The field names [compareInstances] passes to its helpers. *)
Definition schema : list string :=
  [ "instance_type"; "image_id"; "key_name"; "subnet_id"; "vpc_id";
    "iam_instance_profile"; "monitoring"; "architecture"; "virtualization_type";
    "tags"; "security_groups"; "block_device_mappings" ].

(** The string [FlattenBlockDevices] makes of one device. *)
Definition flat (d : BlockDeviceMapping) : string := DeviceName d +:+ "|" +:+ VolumeID d.

(** [inst] with its two collections replaced. *)
Definition with_collections (inst : EC2Instance) (sg : option (list string))
    (bdm : option (list BlockDeviceMapping)) : EC2Instance :=
  {| InstanceID := InstanceID inst; InstanceType := InstanceType inst;
     ImageID := ImageID inst; KeyName := KeyName inst; State := State inst;
     AvailabilityZone := AvailabilityZone inst;
     PrivateIPAddress := PrivateIPAddress inst; PublicIPAddress := PublicIPAddress inst;
     SubnetID := SubnetID inst; VpcID := VpcID inst;
     SecurityGroups := sg; Tags := Tags inst; BlockDeviceMappings := bdm;
     IamInstanceProfile := IamInstanceProfile inst; Monitoring := Monitoring inst;
     Architecture := Architecture inst; VirtualizationType := VirtualizationType inst |}.

(** Replacing an empty non-nil slice by the nil slice, in a boxed value and
    in both sides of a difference. *)
Definition nil_if_empty (v : any) : any :=
  match v with
  | ASlice (Some []) => ASlice None
  | _ => v
  end.

Definition nil_if_empty_diff (d : FieldDiff) : FieldDiff :=
  {| AWS := nil_if_empty (AWS d); Terraform := nil_if_empty (Terraform d) |}.

(** An instance with the given identifier, type and collections, and the
    zero value in every other field. *)
Definition instance_with (id ty : string) (sg : option (list string))
    (tags : option (gmap string string)) (bdm : option (list BlockDeviceMapping))
  : EC2Instance :=
  {| InstanceID := id; InstanceType := ty; ImageID := ""; KeyName := ""; State := "";
     AvailabilityZone := ""; PrivateIPAddress := ""; PublicIPAddress := ""; SubnetID := "";
     VpcID := ""; SecurityGroups := sg; Tags := tags; BlockDeviceMappings := bdm;
     IamInstanceProfile := ""; Monitoring := false; Architecture := "";
     VirtualizationType := "" |}.

(** Instances of the scenarios of the specification and of the tests. *)
Definition i_1_observed : EC2Instance :=
  instance_with "i-1" "t3.micro" (Some ["sg-2"; "sg-1"]) (Some {[ "Name" := "web" ]})
    (Some [ {| DeviceName := "/dev/sdb"; VolumeID := "vol-2" |};
            {| DeviceName := "/dev/sda1"; VolumeID := "vol-1" |} ]).

Definition i_1_declared : EC2Instance :=
  instance_with "i-1" "t2.micro" (Some ["sg-1"; "sg-3"]) (Some {[ "Env" := "prod" ]})
    (Some [ {| DeviceName := "/dev/sda1"; VolumeID := "vol-1" |} ]).

Definition i_2 : EC2Instance := instance_with "i-2" "t3.micro" None None None.

(** ** The dispatcher *)

(** What a worker holds in a pending send. *)
Definition in_flight (w : worker) : list DriftResult :=
  match w with AtSend r => [r] | _ => [] end.

Definition sending (ws : list worker) : list DriftResult := ws ≫= in_flight.

(** What the feeder has still to send. *)
Definition pending (f : feeder) : list EC2Instance :=
  match f with Feeding rest => rest | Closed => [] end.

(** What the caller has appended to [results]. *)
Definition collected (m : collector) : list DriftResult :=
  match m with Collecting rs | Done rs => rs end.

#[global] Instance worker_eq_dec : EqDecision worker.
Proof. solve_decision. Defined.

(** The invariant of all runs: there are [maxWorkers] workers; the results
    collected or in a pending send are those of the instances taken from
    the input so far, in some order; [resultsCh] is closed only when every
    worker has returned, and the caller returns only after that. *)
Definition safe (awsInstances : list EC2Instance) (tfMap : gmap string EC2Instance)
    (filter : gmap string bool) (s : state) : Prop :=
  match s with
  | Panic => False
  | St c f ws cl m =>
      length ws = maxWorkers
      ∧ (∃ taken, taken ++ pending f = awsInstances
                  ∧ collected m ++ sending ws ≡ₚ handle tfMap filter <$> taken)
      ∧ (cl = true → Forall (λ w, w = Returned) ws)
      ∧ (∀ rs, m = Done rs → cl = true)
  end.

(** Without cancellation, a worker returns only after [tasks] is closed. *)
Definition quiet (s : state) : Prop :=
  match s with
  | Panic => True
  | St c f ws cl m => c = false ∧ (Returned ∈ ws → f = Closed)
  end.

(** A measure that every step decreases. *)
Definition worker_weight (w : worker) : nat :=
  match w with AtSelect => 1 | AtSend _ => 2 | Returned => 0 end.

Definition feeder_weight (f : feeder) : nat :=
  match f with Feeding rest => 1 + 2 * length rest | Closed => 0 end.

Definition collector_weight (m : collector) : nat :=
  match m with Collecting _ => 1 | Done _ => 0 end.

Definition weight (s : state) : nat :=
  match s with
  | Panic => 0
  | St c f ws cl m =>
      1 + (if c then 0 else 1) + feeder_weight f + sum_list (worker_weight <$> ws)
        + (if cl then 0 else 1) + collector_weight m
  end.

(** From [s0] the call returns normally whatever the scheduler and the
    context do: no run is infinite, no run panics, and as long as the caller
    has not returned some goroutine can take a step without the help of a
    cancellation. *)
Definition always_returns (tfMap : gmap string EC2Instance) (filter : gmap string bool)
    (s0 : state) : Prop :=
  sn (step_or_cancel tfMap filter) s0
  ∧ ∀ s, rtc (step_or_cancel tfMap filter) s0 s →
         s ≠ Panic ∧ (returned s = None → ∃ s', step tfMap filter s s').

(** ** Reading the store
 
    Relations between what the store holds and the values of the first
    embedding. *)

Module store.
Import memory.

Abbreviation heap := (gmap addr object).

(** A slice of the store against a slice value, a map pointer against a map
    value, and so on up to results: the store holds the value. *)
Definition strings_rel (h : heap) (s : slice) (v : option (list string)) : Prop :=
  match s, v with
  | NilSlice, None => True
  | EmptySlice, Some [] => True
  | Array p, Some xs => h !! p = Some (OStrings xs)
  | _, _ => False
  end.

Definition devices_rel (h : heap) (s : slice) (v : option (list BlockDeviceMapping)) : Prop :=
  match s, v with
  | NilSlice, None => True
  | EmptySlice, Some [] => True
  | Array p, Some ds => h !! p = Some (ODevices ds)
  | _, _ => False
  end.

Definition tags_rel (h : heap) (t : option addr) (v : option (gmap string string)) : Prop :=
  match t, v with
  | None, None => True
  | Some p, Some m => h !! p = Some (OTags m)
  | _, _ => False
  end.

Definition any_rel (h : heap) (x : any) (v : common.any) : Prop :=
  match x, v with
  | AString s, common.AString s' => s = s'
  | ABool b, common.ABool b' => b = b'
  | AMap t, common.AMap m => tags_rel h t m
  | ASlice s, common.ASlice l => strings_rel h s l
  | _, _ => False
  end.

Definition diff_rel (h : heap) (d : FieldDiff) (v : common.FieldDiff) : Prop :=
  any_rel h (AWS d) (common.AWS v) ∧ any_rel h (Terraform d) (common.Terraform v).

Definition diffs_rel (h : heap) (out : gmap string FieldDiff)
    (v : gmap string common.FieldDiff) : Prop :=
  ∀ field, option_Forall2 (diff_rel h) (out !! field) (v !! field).

Definition result_rel (h : heap) (r : DriftResult) (v : common.DriftResult) : Prop :=
  instance_id r = common.instance_id v
  ∧ drift_detected r = common.drift_detected v
  ∧ diffs_rel h (differences r) (common.differences v).

Definition fields_rel (h : heap) (i : EC2Instance) (v : common.EC2Instance) : Prop :=
  InstanceID i = common.InstanceID v
  ∧ InstanceType i = common.InstanceType v
  ∧ ImageID i = common.ImageID v
  ∧ KeyName i = common.KeyName v
  ∧ State i = common.State v
  ∧ AvailabilityZone i = common.AvailabilityZone v
  ∧ PrivateIPAddress i = common.PrivateIPAddress v
  ∧ PublicIPAddress i = common.PublicIPAddress v
  ∧ SubnetID i = common.SubnetID v
  ∧ VpcID i = common.VpcID v
  ∧ IamInstanceProfile i = common.IamInstanceProfile v
  ∧ Monitoring i = common.Monitoring v
  ∧ Architecture i = common.Architecture v
  ∧ VirtualizationType i = common.VirtualizationType v
  ∧ strings_rel h (SecurityGroups i) (common.SecurityGroups v)
  ∧ tags_rel h (Tags i) (common.Tags v)
  ∧ devices_rel h (BlockDeviceMappings i) (common.BlockDeviceMappings v).

(** The pointer [p] leads to the instance [v], collections included. *)
Definition instance_rel (h : heap) (p : addr) (v : common.EC2Instance) : Prop :=
  ∃ i, h !! p = Some (OInstance i) ∧ fields_rel h i v.

(** The backing array of [s], if any, is not allocated in [h]. *)
Definition fresh_in (h : heap) (s : slice) : Prop :=
  match s with
  | Array p => h !! p = None
  | _ => True
  end.

(** [m] runs from [h] to a result and a store that satisfy [Q], and the
    final store still has every cell of [h0] with its content. *)
Definition runs {A} (h0 : heap) (m : M A) (h : heap) (Q : A → heap → Prop) : Prop :=
  ∃ a h', m h = Some (a, h') ∧ h0 ⊆ h' ∧ Q a h'.

(** A slice without capacity and its value. *)
Definition zero_cap (s : slice) (v : option (list string)) : Prop :=
  (s = NilSlice ∧ v = None) ∨ (s = EmptySlice ∧ v = Some []).

(** The table of Terraform pointers against the table of values. *)
Definition tfMap_rel (h : heap) (m : gmap string addr)
    (v : gmap string common.EC2Instance) : Prop :=
  ∀ id, option_Forall2 (instance_rel h) (m !! id) (v !! id).

(** A store with the instances [i_1_observed] at 1 and [i_1_declared] at 2. *)
Definition example_store : heap :=
  {[ 1%positive :=
       OInstance
         {| InstanceID := "i-1"; InstanceType := "t3.micro"; ImageID := ""; KeyName := "";
            State := ""; AvailabilityZone := ""; PrivateIPAddress := "";
            PublicIPAddress := ""; SubnetID := ""; VpcID := "";
            SecurityGroups := Array 3%positive; Tags := Some 4%positive;
            BlockDeviceMappings := Array 5%positive; IamInstanceProfile := ""; Monitoring := false;
            Architecture := ""; VirtualizationType := "" |};
     2%positive :=
       OInstance
         {| InstanceID := "i-1"; InstanceType := "t2.micro"; ImageID := ""; KeyName := "";
            State := ""; AvailabilityZone := ""; PrivateIPAddress := "";
            PublicIPAddress := ""; SubnetID := ""; VpcID := "";
            SecurityGroups := Array 6%positive; Tags := Some 7%positive;
            BlockDeviceMappings := Array 8%positive; IamInstanceProfile := ""; Monitoring := false;
            Architecture := ""; VirtualizationType := "" |};
     3%positive := OStrings ["sg-2"; "sg-1"];
     4%positive := OTags {[ "Name" := "web" ]};
     5%positive := ODevices [ {| DeviceName := "/dev/sdb"; VolumeID := "vol-2" |};
                              {| DeviceName := "/dev/sda1"; VolumeID := "vol-1" |} ];
     6%positive := OStrings ["sg-1"; "sg-3"];
     7%positive := OTags {[ "Env" := "prod" ]};
     8%positive := ODevices [ {| DeviceName := "/dev/sda1"; VolumeID := "vol-1" |} ] ]}.

End store.

(** ** The rest of the program *)

(** The difference seen from the other side. *)
Definition swap_diff (d : FieldDiff) : FieldDiff :=
  {| AWS := Terraform d; Terraform := AWS d |}.

(** The entry of a field of a comparable type: present when the field is
    compared and the two values differ. *)
Definition scalar_diff {T} `{EqDecision T, Boxed T} (filter : gmap string bool)
    (field : string) (a b : T) : option FieldDiff :=
  if shouldCompare filter field && bool_decide (a ≠ b)
  then Some {| AWS := box a; Terraform := box b |}
  else None.

(** A string without the byte [c]. *)
Definition without (c : Ascii.ascii) (s : string) : Prop :=
  c ∉ String.list_ascii_of_string s.

(** The names [ParseCommaList] keeps of the parts. *)
Definition kept (parts : list string) : list string :=
  filter (λ s, s ≠ "") (TrimSpace <$> parts).

(** A byte sequence with no white space at its start, at its end. *)
Definition trimmed_left (s : list Ascii.ascii) : Prop :=
  ∀ sp, sp ∈ white_space → ¬ sp `prefix_of` s.


(** The [attributes] of the instances of the resources of type
    [aws_instance], in the order of the state. *)
Definition declared_attributes {number} (state : terraform.TerraformState number)
  : list (option (gmap string (value number))) :=
  res ← elems (terraform.Resources state);
  if decide (terraform.Type_ res ≠ "aws_instance") then []
  else terraform.Attributes <$> elems (terraform.Instances res).

(** The results of the older dispatcher for the instances missing in
    Terraform, and for the others, each in the order of the input. *)
Definition legacy_missing (tfMap : gmap string EC2Instance) (awsInstances : list EC2Instance)
  : list DriftResult :=
  omap (λ awsInst, match tfMap !! InstanceID awsInst with
                   | None => Some (missing_in_terraform_legacy awsInst)
                   | Some _ => None
                   end) awsInstances.

Definition legacy_compared (tfMap : gmap string EC2Instance) (filter : gmap string bool)
    (awsInstances : list EC2Instance) : list DriftResult :=
  omap (λ awsInst, match tfMap !! InstanceID awsInst with
                   | None => None
                   | Some tfInst => Some (CompareInstances awsInst tfInst filter)
                   end) awsInstances.

(** What the older dispatcher makes of one observed instance. *)
Definition legacy_handle (tfMap : gmap string EC2Instance) (filter : gmap string bool)
    (awsInst : EC2Instance) : DriftResult :=
  match tfMap !! InstanceID awsInst with
  | None => missing_in_terraform_legacy awsInst
  | Some tfInst => CompareInstances awsInst tfInst filter
  end.

(** What a goroutine of the older dispatcher has still to send. *)
Definition legacy_to_send (g : legacy.goroutine) : list DriftResult :=
  match g with legacy.Sending r => [r] | legacy.Finished => [] end.

#[global] Instance legacy_goroutine_eq_dec : EqDecision legacy.goroutine.
Proof. solve_decision. Defined.

(** The invariant of the runs of the older dispatcher: the caller holds
    the results of the missing instances and what was sent, what was sent
    and what is still to send are the results of the pairs, and [resultsCh]
    is closed only when every goroutine has finished. *)
Definition legacy_safe (missing compared : list DriftResult) (s : legacy.state) : Prop :=
  match s with
  | legacy.Panic => False
  | legacy.St gs cl m =>
      (∃ sent, collected m = missing ++ sent
               ∧ sent ++ (gs ≫= legacy_to_send) ≡ₚ compared)
      ∧ (cl = true → Forall (λ g, g = legacy.Finished) gs)
      ∧ (∀ rs, m = Done rs → cl = true)
  end.

Definition legacy_weight (s : legacy.state) : nat :=
  match s with
  | legacy.Panic => 0
  | legacy.St gs cl m =>
      1 + length (gs ≫= legacy_to_send) + (if cl then 0 else 1) + collector_weight m
  end.

(** The identifier and the flag of a result. *)
Definition verdict (r : DriftResult) : string * bool := (instance_id r, drift_detected r).

(** A state file without numbers, and the formatting of its numbers. *)
Definition no_number (n : Empty_set) : string := match n with end.

Definition web_attributes : gmap string (value Empty_set) :=
  {[ "id" := JString "i-1";
     "instance_type" := JString "t2.micro";
     "monitoring" := JBool true;
     "tags" := JObject {[ "Name" := JString "web" ]};
     "vpc_security_group_ids" := JArray [JString "sg-1"];
     "root_block_device" :=
       JArray [JObject {[ "device_name" := JString "/dev/sda1";
                          "volume_id" := JString "vol-1" ]}] ]}.

Definition web_state : terraform.TerraformState Empty_set :=
  {| terraform.Resources :=
       Some [ {| terraform.Type_ := "aws_security_group";
                 terraform.Name := "open";
                 terraform.Instances :=
                   Some [ {| terraform.Attributes := Some {[ "id" := JString "sg-1" ]} |} ] |};
              {| terraform.Type_ := "aws_instance";
                 terraform.Name := "web";
                 terraform.Instances :=
                   Some [ {| terraform.Attributes := Some web_attributes |} ] |} ] |}.

(** A client that describes one running instance, whatever is asked. *)
Definition web_instance : ec2.Instance :=
  {| ec2.InstanceId := Some "i-1";
     ec2.InstanceType := "t3.micro";
     ec2.ImageId := Some "ami-1";
     ec2.KeyName := None;
     ec2.State := Some {| ec2types.Name := "running" |};
     ec2.PrivateIpAddress := Some "10.0.0.1";
     ec2.PublicIpAddress := None;
     ec2.SubnetId := Some "subnet-1";
     ec2.VpcId := Some "vpc-1";
     ec2.SecurityGroups := Some [ {| ec2types.GroupId := Some "sg-1" |} ];
     ec2.Tags := Some [ {| ec2types.Key := Some "Name"; ec2types.Value := Some "web" |} ];
     ec2.BlockDeviceMappings :=
       Some [ {| ec2types.DeviceName := Some "/dev/sda1";
                 ec2types.Ebs := Some {| ec2types.VolumeId := Some "vol-1" |} |} ];
     ec2.IamInstanceProfile := None;
     ec2.Monitoring := Some {| ec2types.State := "enabled" |};
     ec2.Placement := Some {| ec2types.AvailabilityZone := Some "us-east-2a" |};
     ec2.Architecture := "x86_64";
     ec2.VirtualizationType := "hvm" |}.

Definition web_client : aws.EC2Client :=
  λ _, (Some {| ec2.Reservations := Some [ {| ec2.Instances := Some [web_instance] |} ] |},
        None).

(** What the parser and the client make of them. *)
Definition web_declared : EC2Instance := terraform.ec2Inst no_number (Some web_attributes).

Definition web_observed : EC2Instance :=
  {| InstanceID := "i-1"; InstanceType := "t3.micro"; ImageID := "ami-1"; KeyName := "";
     State := "running"; AvailabilityZone := "us-east-2a"; PrivateIPAddress := "10.0.0.1";
     PublicIPAddress := ""; SubnetID := "subnet-1"; VpcID := "vpc-1";
     SecurityGroups := Some ["sg-1"];
     Tags := Some {[ "Name" := "web" ]};
     BlockDeviceMappings := Some [ {| DeviceName := "/dev/sda1"; VolumeID := "vol-1" |} ];
     IamInstanceProfile := ""; Monitoring := true; Architecture := "x86_64";
     VirtualizationType := "hvm" |}.

(** * Facts *)

(** ** Sorting and the helpers of the comparators *)

Lemma sort_Permutation (l l' : list string) :
  l ≡ₚ l' → merge_sort String.le l = merge_sort String.le l'.
Proof.
  intros Hperm. apply (Sorted_unique String.le).
  - apply (Sorted_merge_sort String.le).
  - apply (Sorted_merge_sort String.le).
  - by rewrite !merge_sort_Permutation.
Qed.

Lemma sort_sort (l : list string) :
  merge_sort String.le (merge_sort String.le l) = merge_sort String.le l.
Proof. apply sort_Permutation, merge_sort_Permutation. Qed.

Lemma elems_sorted_copy (base s : option (list string)) :
  elems base = [] →
  elems (sort_Strings (append base s)) = merge_sort String.le (elems s).
Proof.
  unfold sort_Strings, append, len. destruct base as [l|]; simpl.
  - by intros ->.
  - intros _. case_bool_decide as Hlen; simpl; [|done].
    apply nil_length_inv in Hlen. by rewrite Hlen.
Qed.

Lemma sorted_copy_Some (s : option (list string)) :
  sort_Strings (append (Some []) s) = Some (merge_sort String.le (elems s)).
Proof. done. Qed.

Lemma FlattenBlockDevices_elems devices :
  FlattenBlockDevices devices
  = Some ((λ d, DeviceName d +:+ "|" +:+ VolumeID d) <$> elems devices).
Proof.
  unfold FlattenBlockDevices, len. case_bool_decide as Hlen; [|done].
  apply nil_length_inv in Hlen. by rewrite Hlen.
Qed.

Lemma filtered_out_shouldCompare filter field :
  filtered_out filter field = negb (shouldCompare filter field).
Proof.
  unfold filtered_out, shouldCompare.
  destruct (index filter field); repeat case_bool_decide; simpl; try done; lia.
Qed.

Section comparator_stages.
Context (filter : gmap string bool) (out : gmap string FieldDiff).

Lemma compareField_filtered {T} `{EqDecision T, Boxed T} field (a b : T) :
  shouldCompare filter field = false → compareField field a b filter out = out.
Proof. intros Hsc. unfold compareField. by rewrite filtered_out_shouldCompare, Hsc. Qed.

Lemma compareMap_filtered field a b :
  shouldCompare filter field = false → compareMap field a b filter out = out.
Proof. intros Hsc. unfold compareMap. by rewrite filtered_out_shouldCompare, Hsc. Qed.

Lemma compareSlice_filtered field a b :
  shouldCompare filter field = false → compareSlice field a b filter out = out.
Proof. intros Hsc. unfold compareSlice. by rewrite filtered_out_shouldCompare, Hsc. Qed.

Lemma compareField_lookup_ne {T} `{EqDecision T, Boxed T} field fld (a b : T) :
  field ≠ fld → compareField field a b filter out !! fld = out !! fld.
Proof.
  intros Hne. unfold compareField.
  repeat case_match; try done. by rewrite lookup_insert_ne.
Qed.

Lemma compareMap_lookup_ne field fld a b :
  field ≠ fld → compareMap field a b filter out !! fld = out !! fld.
Proof.
  intros Hne. unfold compareMap.
  repeat case_match; try done. by rewrite lookup_insert_ne.
Qed.

Lemma compareSlice_lookup_ne field fld a b :
  field ≠ fld → compareSlice field a b filter out !! fld = out !! fld.
Proof.
  intros Hne. unfold compareSlice.
  repeat case_match; try done. by rewrite lookup_insert_ne.
Qed.

Lemma compareField_keeps {T} `{EqDecision T, Boxed T} field fld (a b : T) :
  shouldCompare filter fld = false → out !! fld = None →
  compareField field a b filter out !! fld = None.
Proof.
  intros Hsc Hout. destruct (decide (field = fld)) as [->|Hne].
  - by rewrite compareField_filtered.
  - by rewrite compareField_lookup_ne.
Qed.

Lemma compareMap_keeps field fld a b :
  shouldCompare filter fld = false → out !! fld = None →
  compareMap field a b filter out !! fld = None.
Proof.
  intros Hsc Hout. destruct (decide (field = fld)) as [->|Hne].
  - by rewrite compareMap_filtered.
  - by rewrite compareMap_lookup_ne.
Qed.

Lemma compareSlice_keeps field fld a b :
  shouldCompare filter fld = false → out !! fld = None →
  compareSlice field a b filter out !! fld = None.
Proof.
  intros Hsc Hout. destruct (decide (field = fld)) as [->|Hne].
  - by rewrite compareSlice_filtered.
  - by rewrite compareSlice_lookup_ne.
Qed.
End comparator_stages.

Lemma shouldCompare_restricted filter fld :
  0 < size filter → index filter fld = false → shouldCompare filter fld = false.
Proof.
  intros Hsize Hidx. unfold shouldCompare. rewrite Hidx.
  case_bool_decide; [lia|done].
Qed.

Ltac keep_absent :=
  repeat first
    [ apply lookup_empty
    | apply compareField_keeps; [done|]
    | apply compareMap_keeps; [done|]
    | apply compareSlice_keeps; [done|]
    | match goal with |- (if ?c then _ else _) !! _ = None => destruct c end ].

(** C5.  Under a non-empty filter, no difference is recorded for a field
    name that the filter does not carry (or carries with [false]), whatever
    the two instances hold in that field. *)
Theorem C5_filter_restriction (awsInst tfInst : EC2Instance) (filter : gmap string bool)
    (fld : string) :
  0 < size filter → index filter fld = false →
  differences (compareInstances awsInst tfInst filter) !! fld = None.
Proof.
  intros Hsize Hidx.
  pose proof (shouldCompare_restricted filter fld Hsize Hidx) as Hsc.
  unfold compareInstances; cbn [differences]. keep_absent.
Qed.

Lemma C5_filter_restriction_witness :
  0 < size (ToMap ["instance_type"])
  ∧ index (ToMap ["instance_type"]) "tags" = false
  ∧ Tags i_1_observed ≠ Tags i_1_declared
  ∧ differences (compareInstances i_1_observed i_1_declared (ToMap ["instance_type"]))
      !! "tags" = None.
Proof.
  split_and!.
  - vm_compute. lia.
  - reflexivity.
  - vm_compute. discriminate.
  - apply (C5_filter_restriction i_1_observed i_1_declared (ToMap ["instance_type"]) "tags").
    + vm_compute. lia.
    + reflexivity.
Defined.

Section ext.
Context (f f' : gmap string bool) (field : string).
Context (Hsc : shouldCompare f field = shouldCompare f' field).

Lemma compareField_ext {T} `{EqDecision T, Boxed T} (a b : T) :
  compareField field a b f = compareField field a b f'.
Proof using Hsc. unfold compareField. by rewrite !filtered_out_shouldCompare, Hsc. Qed.

Lemma compareMap_ext a b : compareMap field a b f = compareMap field a b f'.
Proof using Hsc. unfold compareMap. by rewrite !filtered_out_shouldCompare, Hsc. Qed.

Lemma compareSlice_ext a b : compareSlice field a b f = compareSlice field a b f'.
Proof using Hsc. unfold compareSlice. by rewrite !filtered_out_shouldCompare, Hsc. Qed.
End ext.

Lemma compareInstances_filter_ext awsInst tfInst (f f' : gmap string bool) :
  (∀ fld, fld ∈ schema → shouldCompare f fld = shouldCompare f' fld) →
  compareInstances awsInst tfInst f = compareInstances awsInst tfInst f'.
Proof.
  intros Hsc.
  assert (∀ fld, bool_decide (fld ∈ schema) = true →
                 shouldCompare f fld = shouldCompare f' fld) as Hsc'
    by (intros fld Hfld%bool_decide_eq_true; auto).
  unfold compareInstances.
  rewrite !(compareField_ext f f') by (apply Hsc'; reflexivity).
  rewrite !(compareMap_ext f f'), !(compareSlice_ext f f') by (apply Hsc'; reflexivity).
  rewrite !(Hsc' "tags"), !(Hsc' "security_groups"), !(Hsc' "block_device_mappings")
    by reflexivity.
  reflexivity.
Qed.

Lemma shouldCompare_insert filter name b fld :
  0 < size filter → name ≠ fld →
  shouldCompare (<[name := b]> filter) fld = shouldCompare filter fld.
Proof.
  intros Hsize Hne. unfold shouldCompare, index. rewrite lookup_insert_ne by done.
  assert (size (<[name := b]> filter) ≠ 0) as Hins.
  { intros Hz%map_size_empty_iff. by apply insert_non_empty in Hz. }
  repeat case_bool_decide; try done; lia.
Qed.

(** C4, for non-empty filters.  Adding a name outside the schema to a non-empty filter
    changes nothing: the comparison gives the same result.  (On the empty
    filter it does: the filter stops meaning "every field".) *)
Theorem C4_unrecognized_name (awsInst tfInst : EC2Instance) (filter : gmap string bool)
    (name : string) (b : bool) :
  0 < size filter → name ∉ schema →
  compareInstances awsInst tfInst (<[name := b]> filter)
  = compareInstances awsInst tfInst filter.
Proof.
  intros Hsize Hname. apply compareInstances_filter_ext. intros fld Hfld.
  apply shouldCompare_insert; [done|]. by intros ->.
Qed.

Lemma C4_unrecognized_name_witness :
  0 < size (ToMap ["instance_type"])
  ∧ ("colour" ∉ schema)
  ∧ compareInstances i_1_observed i_1_declared (<["colour" := true]> (ToMap ["instance_type"]))
    = compareInstances i_1_observed i_1_declared (ToMap ["instance_type"]).
Proof.
  split_and!.
  - vm_compute. lia.
  - apply (bool_decide_unpack _). vm_compute. exact I.
  - apply (C4_unrecognized_name i_1_observed i_1_declared (ToMap ["instance_type"])
             "colour" true).
    + vm_compute. lia.
    + apply (bool_decide_unpack _). vm_compute. exact I.
Defined.

(** C4 does not hold for the empty filter: with no filter the instance
    types are compared and differ; with the one unknown name added, nothing
    is compared any more. *)
Lemma C4_empty_filter_counterexample :
  ("colour" ∉ schema)
  ∧ compareInstances i_1_observed i_1_declared (<["colour" := true]> ∅)
    ≠ compareInstances i_1_observed i_1_declared ∅.
Proof.
  split.
  - apply (bool_decide_unpack _). vm_compute. exact I.
  - intros Heq. apply (f_equal drift_detected) in Heq. vm_compute in Heq. discriminate.
Qed.

(** C3, a nil tag map against an empty one: [reflect.DeepEqual] tells them
    apart and a difference on "tags" is recorded. *)
Theorem C3_nil_tags_against_empty_tags :
  compareInstances (instance_with "i-1" "" None None None)
    (instance_with "i-1" "" None (Some ∅) None) ∅
  = {| instance_id := "i-1";
       drift_detected := true;
       differences := {[ "tags" := {| AWS := AMap None; Terraform := AMap (Some ∅) |} ]} |}.
Proof. vm_compute. reflexivity. Qed.

Lemma sorted_copy_Permutation (s s' : option (list string)) :
  elems s ≡ₚ elems s' →
  sort_Strings (append (Some []) s) = sort_Strings (append (Some []) s').
Proof. intros Hperm. rewrite !sorted_copy_Some. f_equal. by apply sort_Permutation. Qed.

Lemma sorted_flat_Permutation (d d' : option (list BlockDeviceMapping)) :
  elems d ≡ₚ elems d' →
  sort_Strings (FlattenBlockDevices d) = sort_Strings (FlattenBlockDevices d').
Proof.
  intros Hperm. rewrite !FlattenBlockDevices_elems. simpl. f_equal.
  apply sort_Permutation. by apply fmap_Permutation.
Qed.

Lemma compareInstances_permuted awsInst tfInst filter sgA bdmA sgT bdmT :
  elems sgA ≡ₚ elems (SecurityGroups awsInst) →
  elems bdmA ≡ₚ elems (BlockDeviceMappings awsInst) →
  elems sgT ≡ₚ elems (SecurityGroups tfInst) →
  elems bdmT ≡ₚ elems (BlockDeviceMappings tfInst) →
  compareInstances (with_collections awsInst sgA bdmA) (with_collections tfInst sgT bdmT) filter
  = compareInstances awsInst tfInst filter.
Proof.
  intros HsgA HbdmA HsgT HbdmT.
  unfold compareInstances, with_collections.
  cbn [InstanceID InstanceType ImageID KeyName SubnetID VpcID SecurityGroups Tags
       BlockDeviceMappings IamInstanceProfile Monitoring Architecture VirtualizationType].
  rewrite (sorted_copy_Permutation sgA _ HsgA), (sorted_copy_Permutation sgT _ HsgT).
  rewrite (sorted_flat_Permutation bdmA _ HbdmA), (sorted_flat_Permutation bdmT _ HbdmT).
  reflexivity.
Qed.

(** What [compareSlice] stores for sorted non-nil arguments. *)
Lemma compareSlice_stored field (l1 l2 : list string) filter out d :
  out !! field = None →
  compareSlice field (Some (merge_sort String.le l1)) (Some (merge_sort String.le l2)) filter out
    !! field = Some d →
  ∃ sa sb, d = {| AWS := ASlice sa; Terraform := ASlice sb |}
           ∧ elems sa = merge_sort String.le l1 ∧ elems sb = merge_sort String.le l2.
Proof.
  intros Hout. unfold compareSlice.
  destruct (filtered_out filter field); [by rewrite Hout|].
  case_match; [|by rewrite Hout].
  rewrite lookup_insert_eq. intros Heq.
  exists (sort_Strings (append None (Some (merge_sort String.le l1)))),
         (sort_Strings (append None (Some (merge_sort String.le l2)))).
  split; [congruence|]. rewrite !elems_sorted_copy by done.
  cbn [elems default from_option id]. by rewrite !sort_sort.
Qed.

Ltac skip_stage :=
  first
    [ rewrite compareField_lookup_ne by done
    | rewrite compareMap_lookup_ne by done
    | rewrite compareSlice_lookup_ne by done ].

Lemma security_groups_stored awsInst tfInst filter d :
  differences (compareInstances awsInst tfInst filter) !! "security_groups" = Some d →
  ∃ sa sb, d = {| AWS := ASlice sa; Terraform := ASlice sb |}
           ∧ elems sa = merge_sort String.le (elems (SecurityGroups awsInst))
           ∧ elems sb = merge_sort String.le (elems (SecurityGroups tfInst)).
Proof.
  unfold compareInstances; cbn [differences]. rewrite !sorted_copy_Some.
  set (d9 := compareField "virtualization_type" _ _ _ _).
  assert (d9 !! "security_groups" = None) as Hd9.
  { subst d9. repeat skip_stage. apply lookup_empty. }
  set (d10 := if shouldCompare filter "tags" && _ then _ else d9).
  assert (d10 !! "security_groups" = None) as Hd10.
  { subst d10. case_match; [by skip_stage|done]. }
  intros Hd.
  assert (∀ m : gmap string FieldDiff,
    (if shouldCompare filter "block_device_mappings"
     then if negb (slices_Equal
                     (sort_Strings (FlattenBlockDevices (BlockDeviceMappings awsInst)))
                     (sort_Strings (FlattenBlockDevices (BlockDeviceMappings tfInst))))
          then compareSlice "block_device_mappings"
                 (sort_Strings (FlattenBlockDevices (BlockDeviceMappings awsInst)))
                 (sort_Strings (FlattenBlockDevices (BlockDeviceMappings tfInst))) filter m
          else m
     else m) !! "security_groups" = m !! "security_groups") as Hlast.
  { intros m. clear. repeat case_match; try done. by skip_stage. }
  rewrite Hlast in Hd. clear Hlast.
  destruct (shouldCompare filter "security_groups"); [|by rewrite Hd10 in Hd].
  case_match; [|by rewrite Hd10 in Hd].
  by eapply compareSlice_stored.
Qed.

Lemma block_device_mappings_stored awsInst tfInst filter d :
  differences (compareInstances awsInst tfInst filter) !! "block_device_mappings" = Some d →
  ∃ sa sb, d = {| AWS := ASlice sa; Terraform := ASlice sb |}
           ∧ elems sa = merge_sort String.le (flat <$> elems (BlockDeviceMappings awsInst))
           ∧ elems sb = merge_sort String.le (flat <$> elems (BlockDeviceMappings tfInst)).
Proof.
  unfold compareInstances; cbn [differences].
  rewrite !sorted_copy_Some, !FlattenBlockDevices_elems. cbn [sort_Strings fmap option_fmap option_map].
  set (d9 := compareField "virtualization_type" _ _ _ _).
  assert (d9 !! "block_device_mappings" = None) as Hd9.
  { subst d9. repeat skip_stage. apply lookup_empty. }
  set (d10 := if shouldCompare filter "tags" && _ then _ else d9).
  assert (d10 !! "block_device_mappings" = None) as Hd10.
  { subst d10. case_match; [by skip_stage|done]. }
  set (d11 := if shouldCompare filter "security_groups" then _ else d10).
  assert (d11 !! "block_device_mappings" = None) as Hd11.
  { subst d11. repeat case_match; try done. by skip_stage. }
  intros Hd.
  destruct (shouldCompare filter "block_device_mappings"); [|by rewrite Hd11 in Hd].
  case_match; [|by rewrite Hd11 in Hd].
  by eapply compareSlice_stored.
Qed.

(** C6.  Replacing the security groups or the block devices of either
    instance by a permutation of them gives the same result; and what is
    stored for these two fields, when something is, is on each side the
    bytewise sorted sequence of the groups, or of the flattened devices. *)
Theorem C6_order_independence (awsInst tfInst : EC2Instance) (filter : gmap string bool)
    (sgA sgT : option (list string)) (bdmA bdmT : option (list BlockDeviceMapping)) :
  elems sgA ≡ₚ elems (SecurityGroups awsInst) →
  elems bdmA ≡ₚ elems (BlockDeviceMappings awsInst) →
  elems sgT ≡ₚ elems (SecurityGroups tfInst) →
  elems bdmT ≡ₚ elems (BlockDeviceMappings tfInst) →
  compareInstances (with_collections awsInst sgA bdmA) (with_collections tfInst sgT bdmT) filter
  = compareInstances awsInst tfInst filter
  ∧ (∀ d, differences (compareInstances awsInst tfInst filter) !! "security_groups" = Some d →
       ∃ sa sb, d = {| AWS := ASlice sa; Terraform := ASlice sb |}
         ∧ Sorted String.le (elems sa) ∧ elems sa ≡ₚ elems (SecurityGroups awsInst)
         ∧ Sorted String.le (elems sb) ∧ elems sb ≡ₚ elems (SecurityGroups tfInst))
  ∧ (∀ d, differences (compareInstances awsInst tfInst filter) !! "block_device_mappings" = Some d →
       ∃ sa sb, d = {| AWS := ASlice sa; Terraform := ASlice sb |}
         ∧ Sorted String.le (elems sa)
         ∧ elems sa ≡ₚ flat <$> elems (BlockDeviceMappings awsInst)
         ∧ Sorted String.le (elems sb)
         ∧ elems sb ≡ₚ flat <$> elems (BlockDeviceMappings tfInst)).
Proof.
  intros HsgA HbdmA HsgT HbdmT. split_and!.
  - by apply compareInstances_permuted.
  - intros d (sa & sb & -> & Ha & Hb)%security_groups_stored.
    exists sa, sb. rewrite Ha, Hb.
    split_and!;
      first [done | apply (Sorted_merge_sort String.le) | apply (merge_sort_Permutation String.le)].
  - intros d (sa & sb & -> & Ha & Hb)%block_device_mappings_stored.
    exists sa, sb. rewrite Ha, Hb.
    split_and!;
      first [done | apply (Sorted_merge_sort String.le) | apply (merge_sort_Permutation String.le)].
Qed.

Lemma C6_order_independence_witness :
  elems (Some ["sg-1"; "sg-2"]) ≡ₚ elems (SecurityGroups i_1_observed)
  ∧ elems (Some [ {| DeviceName := "/dev/sda1"; VolumeID := "vol-1" |};
                  {| DeviceName := "/dev/sdb"; VolumeID := "vol-2" |} ])
    ≡ₚ elems (BlockDeviceMappings i_1_observed)
  ∧ elems (Some ["sg-3"; "sg-1"]) ≡ₚ elems (SecurityGroups i_1_declared)
  ∧ compareInstances
      (with_collections i_1_observed (Some ["sg-1"; "sg-2"])
         (Some [ {| DeviceName := "/dev/sda1"; VolumeID := "vol-1" |};
                 {| DeviceName := "/dev/sdb"; VolumeID := "vol-2" |} ]))
      (with_collections i_1_declared (Some ["sg-3"; "sg-1"])
         (BlockDeviceMappings i_1_declared)) ∅
    = compareInstances i_1_observed i_1_declared ∅.
Proof.
  split_and!.
  - apply perm_swap.
  - apply perm_swap.
  - apply perm_swap.
  - apply (C6_order_independence i_1_observed i_1_declared ∅
             (Some ["sg-1"; "sg-2"]) (Some ["sg-3"; "sg-1"])
             (Some [ {| DeviceName := "/dev/sda1"; VolumeID := "vol-1" |};
                     {| DeviceName := "/dev/sdb"; VolumeID := "vol-2" |} ])
             (BlockDeviceMappings i_1_declared)).
    + apply perm_swap.
    + apply perm_swap.
    + apply perm_swap.
    + reflexivity.
Defined.

(** A nil and an empty list of security groups or of block devices are not
    told apart, on either side. *)
Lemma nil_and_empty_collections_agree (awsInst tfInst : EC2Instance)
    (filter : gmap string bool) :
  compareInstances (with_collections awsInst None None)
    (with_collections tfInst (Some []) (Some [])) filter
  = compareInstances (with_collections awsInst (Some []) (Some []))
      (with_collections tfInst None None) filter.
Proof.
  rewrite <- (compareInstances_permuted (with_collections awsInst (Some []) (Some []))
                (with_collections tfInst None None) filter None None (Some []) (Some []))
    by done.
  reflexivity.
Qed.

Section against_compare.
Context (filter : gmap string bool) (out : gmap string FieldDiff).

Lemma compareField_string field (a b : string) :
  compareField field a b filter (nil_if_empty_diff <$> out)
  = nil_if_empty_diff <$> compare filter field (AString a) (AString b) out.
Proof.
  unfold compareField, compare. rewrite filtered_out_shouldCompare.
  destruct (shouldCompare filter field); simpl; [|done].
  repeat case_bool_decide; simpl; try done; by rewrite ?fmap_insert.
Qed.

Lemma compareField_bool field (a b : bool) :
  compareField field a b filter (nil_if_empty_diff <$> out)
  = nil_if_empty_diff <$> compare filter field (ABool a) (ABool b) out.
Proof.
  unfold compareField, compare. rewrite filtered_out_shouldCompare.
  destruct (shouldCompare filter field); simpl; [|done].
  repeat case_bool_decide; simpl; try done; by rewrite ?fmap_insert.
Qed.

Lemma compareMap_compare field a b :
  compareMap field a b filter (nil_if_empty_diff <$> out)
  = nil_if_empty_diff <$> compare filter field (AMap a) (AMap b) out.
Proof.
  unfold compareMap, compare. rewrite filtered_out_shouldCompare.
  destruct (shouldCompare filter field); simpl; [|done].
  destruct (DeepEqual_map a b); simpl; [done|]. by rewrite fmap_insert.
Qed.

Lemma sorted_copy_nil_if_empty (l : list string) :
  ASlice (sort_Strings (append None (Some (merge_sort String.le l))))
  = nil_if_empty (ASlice (Some (merge_sort String.le l))).
Proof.
  unfold append, len. simpl. case_bool_decide as Hlen.
  - apply nil_length_inv in Hlen. by rewrite Hlen.
  - simpl. rewrite sort_sort. destruct (merge_sort String.le l); [done|done].
Qed.

Lemma compareSlice_compare field (l1 l2 : list string) :
  compareSlice field (Some (merge_sort String.le l1)) (Some (merge_sort String.le l2))
    filter (nil_if_empty_diff <$> out)
  = nil_if_empty_diff <$>
      compare filter field (ASlice (Some (merge_sort String.le l1)))
        (ASlice (Some (merge_sort String.le l2))) out.
Proof.
  unfold compareSlice, compare. rewrite filtered_out_shouldCompare.
  destruct (shouldCompare filter field); cbn [negb andb]; [|done].
  unfold slices_Equal. rewrite !elems_sorted_copy by done.
  cbn [elems default from_option id DeepEqual DeepEqual_slice]. rewrite !sort_sort.
  case_bool_decide; cbn [negb]; [done|].
  rewrite fmap_insert. unfold nil_if_empty_diff at 2. cbn [AWS Terraform].
  by rewrite <- !sorted_copy_nil_if_empty.
Qed.
End against_compare.

Lemma differences_against_CompareInstances awsInst tfInst filter :
  differences (compareInstances awsInst tfInst filter)
  = nil_if_empty_diff <$> differences (CompareInstances awsInst tfInst filter).
Proof.
  unfold compareInstances, CompareInstances; cbn [differences].
  rewrite !sorted_copy_Some, !FlattenBlockDevices_elems.
  cbn [sort_Strings fmap option_fmap option_map].
  repeat match goal with
         | |- context [if ?c then _ else _] =>
             lazymatch c with
             | shouldCompare _ _ => destruct c
             | negb _ => destruct c
             | _ && _ => destruct c
             end
         end;
    repeat first [ rewrite <- compareSlice_compare | rewrite <- compareMap_compare
                 | rewrite <- compareField_string | rewrite <- compareField_bool ];
    rewrite fmap_empty; reflexivity.
Qed.

(** Two scenarios of the tests: a difference in the instance type under a
    filter on it, and security groups in another order. *)
Example scenario_instance_type :
  compareInstances (instance_with "i-1" "t3.micro" None None None)
    (instance_with "i-1" "t2.micro" None None None) (ToMap ["instance_type"])
  = {| instance_id := "i-1";
       drift_detected := true;
       differences :=
         {[ "instance_type" :=
              {| AWS := AString "t3.micro"; Terraform := AString "t2.micro" |} ]} |}.
Proof. vm_compute. reflexivity. Qed.

Example scenario_security_groups_order :
  compareInstances (instance_with "i-1" "" (Some ["sg-2"; "sg-1"]) None None)
    (instance_with "i-1" "" (Some ["sg-1"; "sg-2"]) None None) ∅
  = {| instance_id := "i-1"; drift_detected := false; differences := ∅ |}.
Proof. vm_compute. reflexivity. Qed.

(** C10, up to nil and empty slices.  The two comparators return the same identifier and
    the same flag, and the differences of the typed one are those of the
    older one with every empty non-nil slice replaced by the nil slice: the
    typed [compareSlice] copies onto a nil slice, so an empty side is stored
    as nil where the older comparator stores the empty copy it sorted. *)
Theorem C10_against_legacy (awsInst tfInst : EC2Instance) (filter : gmap string bool) :
  instance_id (compareInstances awsInst tfInst filter)
  = instance_id (CompareInstances awsInst tfInst filter)
  ∧ drift_detected (compareInstances awsInst tfInst filter)
    = drift_detected (CompareInstances awsInst tfInst filter)
  ∧ differences (compareInstances awsInst tfInst filter)
    = nil_if_empty_diff <$> differences (CompareInstances awsInst tfInst filter).
Proof.
  split_and!; [done| |apply differences_against_CompareInstances].
  change (drift_detected (compareInstances awsInst tfInst filter))
    with (bool_decide (0 < size (differences (compareInstances awsInst tfInst filter)))).
  rewrite differences_against_CompareInstances, map_size_fmap. done.
Qed.

(** C10 does not hold with equality: with security groups on one side only, the empty
    other side is stored as nil by the typed comparator and as an empty
    slice by the older one. *)
Lemma C10_empty_side_counterexample :
  compareInstances (instance_with "i-1" "" (Some ["sg-1"]) None None)
    (instance_with "i-1" "" None None None) ∅
  ≠ CompareInstances (instance_with "i-1" "" (Some ["sg-1"]) None None)
      (instance_with "i-1" "" None None None) ∅.
Proof.
  intros Heq. apply (f_equal (λ r, differences r !! "security_groups")) in Heq.
  vm_compute in Heq. discriminate.
Qed.

(** ** The dispatcher: invariants, termination and progress *)

Lemma sending_insert ws i w w' :
  ws !! i = Some w →
  in_flight w ++ sending (<[i := w']> ws) ≡ₚ in_flight w' ++ sending ws.
Proof.
  unfold sending. revert i. induction ws as [|w0 ws IH]; intros [|i] Hi; simplify_eq/=.
  - solve_Permutation.
  - rewrite Permutation_app_swap_app, (IH i Hi). apply Permutation_app_swap_app.
Qed.

Lemma returned_not_at i ws w :
  Forall (λ w, w = Returned) ws → ws !! i = Some w → w = Returned.
Proof. intros Hall Hi. exact (Forall_lookup_1 _ _ _ _ Hall Hi). Qed.

Lemma safe_start c awsInstances tfMap filter :
  safe awsInstances tfMap filter (start c awsInstances).
Proof.
  unfold start; simpl. split_and!; [done| |done|done].
  exists []. by split.
Qed.

Lemma safe_step awsInstances tfMap filter s s' :
  safe awsInstances tfMap filter s → step tfMap filter s s' →
  safe awsInstances tfMap filter s'.
Proof.
  intros Hs Hstep.
  destruct Hstep as [c ws cl m|c x rest ws i cl m Hi|c ws i cl m Hi|f ws i cl m Hi
                    |c f ws i r rs Hi|c f ws i r m Hi|c f ws m Hall|c f ws rs];
    simpl in *; destruct Hs as (Hlen & (taken & Htaken & Hperm) & Hcl & Hdone).
  - split_and!; eauto.
  - split_and!; [by rewrite length_insert| |..|done].
    + exists (taken ++ [x]). split; [by rewrite <- app_assoc|].
      rewrite fmap_app; simpl. rewrite <- Hperm.
      pose proof (sending_insert ws i AtSelect (AtSend (handle tfMap filter x)) Hi) as Hsend.
      simpl in Hsend. rewrite Hsend. solve_Permutation.
    + intros ->. specialize (Hcl eq_refl). by pose proof (returned_not_at _ _ _ Hcl Hi).
  - split_and!; [by rewrite length_insert| |..|done].
    + exists taken. split; [done|].
      pose proof (sending_insert ws i AtSelect Returned Hi) as Hsend.
      simpl in Hsend. by rewrite Hsend.
    + intros ->. apply Forall_insert; auto.
  - split_and!; [by rewrite length_insert| |..|done].
    + exists taken. split; [done|].
      pose proof (sending_insert ws i AtSelect Returned Hi) as Hsend.
      simpl in Hsend. by rewrite Hsend.
    + intros ->. apply Forall_insert; auto.
  - split_and!; [by rewrite length_insert| |done|done].
    exists taken. split; [done|]. rewrite <- Hperm.
    pose proof (sending_insert ws i (AtSend r) AtSelect Hi) as Hsend.
    simpl in Hsend. rewrite <- Hsend. solve_Permutation.
  - specialize (Hcl eq_refl). by pose proof (returned_not_at _ _ _ Hcl Hi).
  - split_and!; eauto.
  - split_and!; eauto.
Qed.

Lemma safe_cancel awsInstances tfMap filter s s' :
  safe awsInstances tfMap filter s → cancel s s' → safe awsInstances tfMap filter s'.
Proof. intros Hs Hc. by destruct Hc. Qed.

Lemma safe_reachable c awsInstances tfMap filter s :
  rtc (step_or_cancel tfMap filter) (start c awsInstances) s →
  safe awsInstances tfMap filter s.
Proof.
  revert s. apply rtc_ind_r; [apply safe_start|].
  intros y z _ [Hstep|Hcancel] IH; eauto using safe_step, safe_cancel.
Qed.

Lemma step_is_step_or_cancel tfMap filter s s' :
  rtc (step tfMap filter) s s' → rtc (step_or_cancel tfMap filter) s s'.
Proof. apply rtc_subrel. intros x y Hxy. by left. Qed.

Lemma elem_of_insert_inv {A} (l : list A) i x y :
  x ∈ <[i := y]> l → x = y ∨ x ∈ l.
Proof.
  revert i. induction l as [|z l IH]; intros [|i]; simpl; rewrite ?elem_of_cons; auto.
  - tauto.
  - intros [->|?%IH]; tauto.
Qed.

Lemma quiet_step tfMap filter s s' :
  quiet s → step tfMap filter s s' → quiet s'.
Proof.
  intros Hs Hstep. destruct Hstep; simpl in *; try done; destruct Hs as [Hc Hret];
    split; try done.
  - intros [?|?]%elem_of_insert_inv; [done|]. by specialize (Hret ltac:(done)).
  - intros [?|?]%elem_of_insert_inv; [done|]. eauto.
Qed.

Lemma quiet_reachable awsInstances tfMap filter s :
  rtc (step tfMap filter) (start false awsInstances) s → quiet s.
Proof.
  revert s. apply rtc_ind_r; [|eauto using quiet_step].
  split; [done|]. by intros ?%elem_of_replicate_inv.
Qed.

Lemma weight_insert ws i w w' :
  ws !! i = Some w →
  sum_list (worker_weight <$> <[i := w']> ws) + worker_weight w
  = sum_list (worker_weight <$> ws) + worker_weight w'.
Proof.
  revert i. induction ws as [|w0 ws IH]; intros [|i] Hi; simplify_eq/=; [lia|].
  specialize (IH i Hi). lia.
Qed.

Lemma weight_decreases tfMap filter s s' :
  step_or_cancel tfMap filter s s' → weight s' < weight s.
Proof.
  intros [Hstep|Hcancel]; [|destruct Hcancel; simpl; lia].
  destruct Hstep as [c ws cl m|c x rest ws i cl m Hi|c ws i cl m Hi|f ws i cl m Hi
                    |c f ws i r rs Hi|c f ws i r m Hi|c f ws m Hall|c f ws rs];
    simpl; try lia;
    match goal with
    | |- context [<[i := ?w']> ws] => pose proof (weight_insert ws i _ w' Hi); simpl in *; lia
    end.
Qed.

Lemma terminates_by_weight tfMap filter n s :
  weight s < n → sn (step_or_cancel tfMap filter) s.
Proof.
  revert s. induction n as [|n IH]; intros s Hn; [lia|].
  constructor. intros s' Hs'. apply IH.
  apply weight_decreases in Hs'. lia.
Qed.

Lemma progress tfMap filter s :
  s ≠ Panic → returned s = None → ∃ s', step tfMap filter s s'.
Proof.
  destruct s as [c f ws cl m|]; [|done]. intros _ Hret.
  destruct m as [rs|rs]; [|done].
  destruct cl; [eexists; apply collector_return|].
  destruct (decide (Forall (λ w, w = Returned) ws)) as [Hall|Hnot].
  { eexists. by apply closer_close. }
  apply not_Forall_Exists in Hnot; [|apply _].
  apply Exists_exists in Hnot as (w & [i Hi]%list_elem_of_lookup_1 & Hw).
  simpl in Hw. destruct w as [|r|]; [|eexists; by eapply worker_send|done].
  destruct f as [[|x rest]|].
  - eexists. apply feeder_close.
  - eexists. by eapply worker_receive.
  - eexists. by eapply worker_tasks_closed.
Qed.

Lemma sending_all_returned ws :
  Forall (λ w, w = Returned) ws → sending ws = [].
Proof. unfold sending. induction 1 as [|w ws -> _ IH]; [done|]. by simpl. Qed.

Lemma returned_results c awsInstances tfMap filter s rs :
  rtc (step_or_cancel tfMap filter) (start c awsInstances) s →
  returned s = Some rs →
  ∃ taken, taken `prefix_of` awsInstances ∧ rs ≡ₚ handle tfMap filter <$> taken.
Proof.
  intros Hsafe%safe_reachable Hret.
  destruct s as [c' f ws cl [rs'|rs']|]; simplify_eq/=.
  destruct Hsafe as (_ & (taken & Htaken & Hperm) & Hcl & Hdone).
  exists taken. split; [by eexists|].
  rewrite (sending_all_returned ws), app_nil_r in Hperm; eauto.
Qed.

Lemma returned_results_uncancelled awsInstances tfMap filter s rs :
  rtc (step tfMap filter) (start false awsInstances) s →
  returned s = Some rs →
  rs ≡ₚ handle tfMap filter <$> awsInstances.
Proof.
  intros Hrun Hret.
  pose proof (quiet_reachable _ _ _ _ Hrun) as Hquiet.
  apply step_is_step_or_cancel, safe_reachable in Hrun as Hsafe.
  destruct s as [c' f ws cl [rs'|rs']|]; simplify_eq/=.
  destruct Hsafe as (Hlen & (taken & Htaken & Hperm) & Hcl & Hdone).
  destruct Hquiet as [_ Hclosed].
  specialize (Hcl (Hdone _ eq_refl)).
  rewrite (sending_all_returned ws), app_nil_r in Hperm by done.
  destruct ws as [|w ws]; [done|].
  apply Forall_cons in Hcl as [-> _].
  rewrite Hclosed in Htaken by left. simpl in Htaken.
  by rewrite app_nil_r in Htaken; subst.
Qed.

Lemma build_tfMap_from tfInstances (m : gmap string EC2Instance) id :
  foldl (λ tfMap tfInst, <[InstanceID tfInst := tfInst]> tfMap) m tfInstances !! id = None
  ↔ m !! id = None ∧ id ∉ InstanceID <$> tfInstances.
Proof.
  revert m. induction tfInstances as [|t l IH]; intros m; simpl.
  - rewrite elem_of_nil. tauto.
  - rewrite IH, elem_of_cons, lookup_insert_None. intuition congruence.
Qed.

Lemma build_tfMap_None tfInstances id :
  build_tfMap tfInstances !! id = None ↔ id ∉ InstanceID <$> tfInstances.
Proof. unfold build_tfMap. rewrite build_tfMap_from, lookup_empty. tauto. Qed.

Lemma handle_instance_id tfMap filter awsInst :
  instance_id (handle tfMap filter awsInst) = InstanceID awsInst.
Proof. unfold handle. by destruct (tfMap !! InstanceID awsInst). Qed.

Lemma start_always_returns c awsInstances tfMap filter :
  always_returns tfMap filter (start c awsInstances).
Proof.
  split; [apply (terminates_by_weight _ _ (S (weight (start c awsInstances)))); lia|].
  intros s Hs. assert (s ≠ Panic) as Hnp.
  { apply safe_reachable in Hs. by intros ->. }
  eauto using progress.
Qed.

(** A run without cancellation can always be completed. *)
Lemma completes tfMap filter s :
  (∀ s', rtc (step tfMap filter) s s' → s' ≠ Panic) →
  ∃ s' rs, rtc (step tfMap filter) s s' ∧ returned s' = Some rs.
Proof.
  remember (weight s) as n eqn:Hn. revert s Hn.
  induction (lt_wf n) as [n _ IH]. intros s -> Hsafe.
  destruct (returned s) as [rs|] eqn:Hret; [by exists s, rs|].
  destruct (progress tfMap filter s) as [s1 Hs1]; [by apply Hsafe|done|].
  destruct (IH (weight s1)) with (s := s1) as (s' & rs & Hrun & Hrs); [|done|..].
  - eapply weight_decreases. by left.
  - intros s' Hs'. apply Hsafe. by econstructor.
  - exists s', rs. split; [by econstructor|done].
Qed.

Lemma uncancelled_returns awsInstances tfInstances filter :
  ∃ rs, CompareAllInstances_uncancelled awsInstances tfInstances filter rs.
Proof.
  destruct (completes (build_tfMap tfInstances) filter (start false awsInstances))
    as (s & rs & Hrun & Hrs); [|by exists rs, s].
  intros s' Hs'%step_is_step_or_cancel%safe_reachable. by intros ->.
Qed.

Lemma terminates_uncancelled tfMap filter s : sn (step tfMap filter) s.
Proof.
  remember (weight s) as n eqn:Hn. revert s Hn.
  induction (lt_wf n) as [n _ IH]. intros s ->.
  constructor. intros s' Hs'. apply (IH (weight s')); [|done].
  eapply weight_decreases. left. exact Hs'.
Qed.

(** Building concrete runs: one step of worker [n], and two whole runs for
    one observed instance and [maxWorkers] workers. *)
Ltac worker_step lem n :=
  eapply rtc_l; [first [left; eapply lem with (i := n); reflexivity
                       | eapply lem with (i := n); reflexivity]|].

Ltac all_workers lem :=
  worker_step lem 0; worker_step lem 1; worker_step lem 2; worker_step lem 3;
  worker_step lem 4; worker_step lem 5; worker_step lem 6; worker_step lem 7;
  worker_step lem 8; worker_step lem 9.

Ltac finish_run :=
  eapply rtc_l; [first [left; apply closer_close | apply closer_close]; repeat constructor|];
  eapply rtc_l; [first [left; apply collector_return | apply collector_return]|];
  apply rtc_refl.

(** Every worker sees the cancelled context first. *)
Ltac cancelled_run :=
  eexists; split; [unfold start, maxWorkers; all_workers worker_ctx_done; finish_run
                  |reflexivity].

(** Worker 0 takes the one instance and sends its result; then [tasks] is
    closed and every worker returns. *)
Ltac complete_run :=
  eexists; split;
    [unfold start, maxWorkers;
     worker_step worker_receive 0; worker_step worker_send 0;
     eapply rtc_l; [first [left; apply feeder_close | apply feeder_close]|];
     all_workers worker_tasks_closed; finish_run
    |reflexivity].

Lemma handle_missing tfInstances filter awsInst :
  InstanceID awsInst ∉ InstanceID <$> tfInstances →
  handle (build_tfMap tfInstances) filter awsInst = missing_in_terraform awsInst.
Proof. intros Hid%build_tfMap_None. unfold handle. by rewrite Hid. Qed.

Lemma handle_drift_flag tfMap filter awsInst :
  drift_detected (handle tfMap filter awsInst)
  = bool_decide (0 < size (differences (handle tfMap filter awsInst))).
Proof. unfold handle. by destruct (tfMap !! InstanceID awsInst). Qed.

(** C1, without cancellation.  When the context is not cancelled, the call returns,
    and the results it returns are, in some order, one per observed
    instance; the one of an instance whose identifier no Terraform instance
    carries has the flag set and exactly one difference, under
    "terraform_state", with "exists" against "missing". *)
Theorem C1_missing_counterpart (awsInstances tfInstances : list EC2Instance)
    (filter : gmap string bool) :
  (∃ rs, CompareAllInstances_uncancelled awsInstances tfInstances filter rs)
  ∧ ∀ rs, CompareAllInstances_uncancelled awsInstances tfInstances filter rs →
      rs ≡ₚ handle (build_tfMap tfInstances) filter <$> awsInstances
      ∧ ∀ awsInst, awsInst ∈ awsInstances →
          InstanceID awsInst ∉ InstanceID <$> tfInstances →
          handle (build_tfMap tfInstances) filter awsInst
          = {| instance_id := InstanceID awsInst;
               drift_detected := true;
               differences :=
                 {[ "terraform_state" :=
                      {| AWS := AString "exists"; Terraform := AString "missing" |} ]} |}
          ∧ size (differences (handle (build_tfMap tfInstances) filter awsInst)) = 1.
Proof.
  split; [apply uncancelled_returns|].
  intros rs (s & Hrun & Hret). split; [by eapply returned_results_uncancelled|].
  intros awsInst _ Hid. rewrite (handle_missing _ _ _ Hid). split; [done|].
  apply map_size_singleton.
Qed.

Lemma C1_missing_counterpart_witness :
  CompareAllInstances_uncancelled [i_2] [] ∅ [missing_in_terraform i_2]
  ∧ [missing_in_terraform i_2] ≡ₚ handle (build_tfMap []) ∅ <$> [i_2].
Proof.
  split.
  - complete_run.
  - apply (C1_missing_counterpart [i_2] [] ∅). complete_run.
Defined.

(** C1 does not hold under cancellation: with the context
    cancelled before the call, the call may return no result at all, and so
    none for the observed instance "i-2" that Terraform does not know. *)
Lemma C1_cancelled_counterexample :
  (InstanceID i_2 ∉ InstanceID <$> ([] : list EC2Instance))
  ∧ ∃ rs, CompareAllInstances true [i_2] [] ∅ rs
          ∧ ¬ ∃ r, r ∈ rs ∧ instance_id r = InstanceID i_2.
Proof.
  split; [apply not_elem_of_nil|].
  exists []. split; [cancelled_run|].
  intros (r & Hr & _). by apply elem_of_nil in Hr.
Qed.

(** C2.  When the context is not cancelled: no run is infinite, every run
    can be completed to one where the caller returns, and what is returned
    has as many results as there are observed instances, with the same
    identifiers counted with multiplicity. *)
Theorem C2_completeness (awsInstances tfInstances : list EC2Instance)
    (filter : gmap string bool) :
  sn (step (build_tfMap tfInstances) filter) (start false awsInstances)
  ∧ (∀ s, rtc (step (build_tfMap tfInstances) filter) (start false awsInstances) s →
       ∃ s' rs, rtc (step (build_tfMap tfInstances) filter) s s' ∧ returned s' = Some rs)
  ∧ ∀ rs, CompareAllInstances_uncancelled awsInstances tfInstances filter rs →
      length rs = length awsInstances
      ∧ instance_id <$> rs ≡ₚ InstanceID <$> awsInstances.
Proof.
  split_and!.
  - apply terminates_uncancelled.
  - intros s Hs. apply completes. intros s' Hs'.
    assert (rtc (step (build_tfMap tfInstances) filter) (start false awsInstances) s')
      as Hrun by by etrans.
    apply step_is_step_or_cancel, safe_reachable in Hrun. by intros ->.
  - intros rs (s & Hrun & Hret).
    pose proof (returned_results_uncancelled _ _ _ _ _ Hrun Hret) as Hperm.
    split.
    + by rewrite Hperm, length_fmap.
    + rewrite Hperm, <- list_fmap_compose.
      erewrite list_fmap_ext; [reflexivity|].
      intros i awsInst _. apply handle_instance_id.
Qed.

Lemma C2_completeness_witness :
  CompareAllInstances_uncancelled [i_2] [] ∅ [missing_in_terraform i_2]
  ∧ length [missing_in_terraform i_2] = length [i_2]
  ∧ instance_id <$> [missing_in_terraform i_2] ≡ₚ InstanceID <$> [i_2].
Proof.
  split.
  - complete_run.
  - apply (C2_completeness [i_2] [] ∅). complete_run.
Defined.

(** C7.  Every result a call returns, cancelled or not, has its flag equal
    to "there is at least one difference"; so has every result of
    [compareInstances], and so have the results made for an instance
    missing in Terraform, in the current and in the older dispatcher. *)
Theorem C7_drift_flag (ctx_done : bool) (awsInstances tfInstances : list EC2Instance)
    (filter : gmap string bool) (rs : list DriftResult) (r : DriftResult)
    (awsInst tfInst : EC2Instance) :
  CompareAllInstances ctx_done awsInstances tfInstances filter rs → r ∈ rs →
  drift_detected r = bool_decide (0 < size (differences r))
  ∧ drift_detected (compareInstances awsInst tfInst filter)
    = bool_decide (0 < size (differences (compareInstances awsInst tfInst filter)))
  ∧ drift_detected (missing_in_terraform awsInst)
    = bool_decide (0 < size (differences (missing_in_terraform awsInst)))
  ∧ drift_detected (missing_in_terraform_legacy awsInst)
    = bool_decide (0 < size (differences (missing_in_terraform_legacy awsInst))).
Proof.
  intros (s & Hrun & Hret) Hr. split_and!; [|done..].
  destruct (returned_results _ _ _ _ _ _ Hrun Hret) as (taken & _ & Hperm).
  rewrite Hperm in Hr. apply list_elem_of_fmap in Hr as (a & -> & _).
  apply handle_drift_flag.
Qed.

Lemma C7_drift_flag_witness :
  CompareAllInstances false [i_2] [] ∅ [missing_in_terraform i_2]
  ∧ missing_in_terraform i_2 ∈ [missing_in_terraform i_2]
  ∧ drift_detected (missing_in_terraform i_2)
    = bool_decide (0 < size (differences (missing_in_terraform i_2))).
Proof.
  split_and!.
  - complete_run.
  - apply list_elem_of_here.
  - apply (C7_drift_flag false [i_2] [] ∅ [missing_in_terraform i_2]
             (missing_in_terraform i_2) i_2 i_2).
    + complete_run.
    + apply list_elem_of_here.
Defined.

(** C8.  Whatever the inputs, and whenever the context is cancelled, before
    the call or during it: the call returns normally ([always_returns]),
    and what it returns has at most as many results as there are observed
    instances; these are, in some order, the complete results of the
    instances the workers took, which form an initial part of the input. *)
Theorem C8_cancellation (ctx_done : bool) (awsInstances tfInstances : list EC2Instance)
    (filter : gmap string bool) :
  always_returns (build_tfMap tfInstances) filter (start ctx_done awsInstances)
  ∧ ∀ rs, CompareAllInstances ctx_done awsInstances tfInstances filter rs →
      (length rs ≤ length awsInstances)%nat
      ∧ ∃ taken, taken `prefix_of` awsInstances
                 ∧ rs ≡ₚ handle (build_tfMap tfInstances) filter <$> taken.
Proof.
  split; [apply start_always_returns|].
  intros rs (s & Hrun & Hret).
  destruct (returned_results _ _ _ _ _ _ Hrun Hret) as (taken & Hpre & Hperm).
  split; [|by exists taken].
  rewrite Hperm, length_fmap. by apply prefix_length.
Qed.

Lemma C8_cancellation_witness :
  CompareAllInstances true [i_2] [] ∅ []
  ∧ (length ([] : list DriftResult) ≤ length [i_2])%nat.
Proof.
  split.
  - cancelled_run.
  - apply (C8_cancellation true [i_2] [] ∅). cancelled_run.
Defined.

(** ** The comparator and the workers over the store *)

Module store_facts.
Import memory store.

Section mono.
Context (h h' : heap) (Hsub : h ⊆ h').

Lemma strings_rel_mono s v : strings_rel h s v → strings_rel h' s v.
Proof using Hsub. destruct s, v as [[|??]|]; simpl; eauto using lookup_weaken. Qed.

Lemma devices_rel_mono s v : devices_rel h s v → devices_rel h' s v.
Proof using Hsub. destruct s, v as [[|??]|]; simpl; eauto using lookup_weaken. Qed.

Lemma tags_rel_mono t v : tags_rel h t v → tags_rel h' t v.
Proof using Hsub. destruct t, v; simpl; eauto using lookup_weaken. Qed.

Lemma any_rel_mono x v : any_rel h x v → any_rel h' x v.
Proof using Hsub.
  destruct x, v; simpl; eauto using strings_rel_mono, tags_rel_mono.
Qed.

Lemma diff_rel_mono d v : diff_rel h d v → diff_rel h' d v.
Proof using Hsub. intros [??]; split; eauto using any_rel_mono. Qed.

Lemma diffs_rel_mono out v : diffs_rel h out v → diffs_rel h' out v.
Proof using Hsub.
  intros Hrel field. destruct (Hrel field); constructor; eauto using diff_rel_mono.
Qed.

Lemma fields_rel_mono i v : fields_rel h i v → fields_rel h' i v.
Proof using Hsub.
  unfold fields_rel. intros Hf. destruct_and!.
  split_and!; eauto using strings_rel_mono, tags_rel_mono, devices_rel_mono.
Qed.

Lemma instance_rel_mono p v : instance_rel h p v → instance_rel h' p v.
Proof using Hsub.
  intros (i & Hp & Hf). exists i. eauto using lookup_weaken, fields_rel_mono.
Qed.

Lemma result_rel_mono r v : result_rel h r v → result_rel h' r v.
Proof using Hsub. intros (?&?&?). split_and!; eauto using diffs_rel_mono. Qed.

Lemma fresh_in_mono s : fresh_in h' s → fresh_in h s.
Proof using Hsub.
  destruct s as [| |p]; simpl; try done. intros Hp.
  destruct (h !! p) eqn:Hhp; [|done]. by rewrite (lookup_weaken _ _ _ _ Hhp Hsub) in Hp.
Qed.
End mono.

Lemma runs_ret {A} (h0 h : heap) (a : A) (Q : A → heap → Prop) :
  h0 ⊆ h → Q a h → runs h0 (mret a) h Q.
Proof. intros Hsub HQ. by exists a, h. Qed.

Lemma runs_read {A B} (h0 h : heap) (m : M A) (a : A) (k : A → M B) (Q : B → heap → Prop) :
  m h = Some (a, h) → runs h0 (k a) h Q → runs h0 (m ≫= k) h Q.
Proof.
  intros Hm (b & h2 & Hk & Hsub & HQ).
  exists b, h2. split; [|done]. unfold mbind, M_bind. by rewrite Hm.
Qed.

Lemma strings_of_rel h s v : strings_rel h s v → strings_of s h = Some (elems v, h).
Proof.
  destruct s as [| |p], v as [[|x xs]|]; simpl; try done;
    intros Hp; unfold mbind, M_bind, load; by rewrite Hp.
Qed.

Lemma devices_of_rel h s v : devices_rel h s v → devices_of s h = Some (elems v, h).
Proof.
  destruct s as [| |p], v as [[|x xs]|]; simpl; try done;
    intros Hp; unfold mbind, M_bind, load; by rewrite Hp.
Qed.

Lemma tags_of_rel h t v : tags_rel h t v → tags_of t h = Some (v, h).
Proof.
  destruct t as [p|], v as [m|]; simpl; try done.
  intros Hp; unfold mbind, M_bind, load; by rewrite Hp.
Qed.

Lemma instance_at_rel h p i : h !! p = Some (OInstance i) → instance_at p h = Some (i, h).
Proof. intros Hp. unfold instance_at, mbind, M_bind, load. by rewrite Hp. Qed.

Lemma DeepEqual_map_rel h a b va vb :
  tags_rel h a va → tags_rel h b vb →
  DeepEqual_map a b h = Some (go.DeepEqual_map va vb, h).
Proof.
  intros Ha Hb. unfold DeepEqual_map, mbind, M_bind.
  by rewrite (tags_of_rel _ _ _ Ha), (tags_of_rel _ _ _ Hb).
Qed.

Lemma slices_Equal_rel h a b va vb :
  strings_rel h a va → strings_rel h b vb →
  slices_Equal a b h = Some (go.slices_Equal va vb, h).
Proof.
  intros Ha Hb. unfold slices_Equal, mbind, M_bind.
  by rewrite (strings_of_rel _ _ _ Ha), (strings_of_rel _ _ _ Hb).
Qed.

Lemma fresh_lookup (h : heap) : h !! fresh (dom h) = None.
Proof. apply not_elem_of_dom, is_fresh. Qed.

Lemma runs_append {B} (h0 h : heap) base vbase src v (k : slice → M B) Q :
  zero_cap base vbase → strings_rel h src v →
  (∀ s h1, h ⊆ h1 → strings_rel h1 s (go.append vbase v) → fresh_in h s →
     runs h0 (k s) h1 Q) →
  runs h0 (append base src ≫= k) h Q.
Proof.
  intros Hbase Hsrc Hk.
  assert (∃ s h1, append base src h = Some (s, h1) ∧ h ⊆ h1
                  ∧ strings_rel h1 s (go.append vbase v) ∧ fresh_in h s)
    as (s & h1 & Hrun & Hsub & Hrel & Hfresh).
  { unfold append, go.append, len, mbind, M_bind. rewrite (strings_of_rel _ _ _ Hsrc).
    case_bool_decide as Hlen.
    - exists base, h. apply nil_length_inv in Hlen. rewrite Hlen.
      destruct Hbase as [[-> ->]|[-> ->]]; by split_and!.
    - exists (Array (fresh (dom h))), (<[fresh (dom h) := OStrings (elems v)]> h).
      pose proof (fresh_lookup h) as Hfresh.
      destruct Hbase as [[-> ->]|[-> ->]]; simpl;
        (split_and!; [done|by apply insert_subseteq|by rewrite lookup_insert_eq|done]). }
  destruct (Hk s h1 Hsub Hrel Hfresh) as (b & h2 & Hkrun & Hsub2 & HQ).
  exists b, h2. split; [|done]. unfold mbind, M_bind. by rewrite Hrun.
Qed.

Lemma flatten_loop_run ds : ∀ (s : slice) (acc : list string) (h : heap),
  strings_rel h s (Some acc) ∨ (s = EmptySlice ∧ acc = []) →
  ∃ s' h1, flatten_loop s ds h = Some (s', h1) ∧ h ⊆ h1
           ∧ (ds = [] ∧ s' = s ∧ h1 = h
              ∨ ds ≠ [] ∧ strings_rel h1 s' (Some (acc ++ (flat <$> ds))) ∧ fresh_in h s').
Proof.
  induction ds as [|d rest IH]; intros s acc h Hs.
  { exists s, h. split_and!; [done|done|by left]. }
  set (p := fresh (dom h)).
  set (h_1 := <[p := OStrings (acc ++ [flat d])]> h).
  assert (strings_of s h = Some (acc, h)) as Hold.
  { destruct Hs as [Hs|[-> ->]]; [apply (strings_of_rel _ _ _ Hs)|done]. }
  assert (h ⊆ h_1) as Hsub by apply insert_subseteq, fresh_lookup.
  destruct (IH (Array p) (acc ++ [flat d]) h_1) as (s' & h1 & Hrun & Hsub1 & Hcases).
  { left. simpl. subst h_1. by rewrite lookup_insert_eq. }
  exists s', h1. split_and!.
  - simpl. unfold mbind, M_bind. rewrite Hold. unfold alloc. exact Hrun.
  - by etrans.
  - right. split; [done|]. destruct Hcases as [(-> & -> & ->)|(Hne & Hrel & Hfresh)].
    + split; [|apply fresh_lookup]. simpl. subst h_1. by rewrite lookup_insert_eq.
    + split; [by rewrite <- app_assoc in Hrel|]. by eapply fresh_in_mono.
Qed.

Lemma runs_FlattenBlockDevices {B} (h0 h : heap) src v (k : slice → M B) Q :
  devices_rel h src v →
  (∀ s h1, h ⊆ h1 → strings_rel h1 s (common.FlattenBlockDevices v) → fresh_in h s →
     runs h0 (k s) h1 Q) →
  runs h0 (FlattenBlockDevices src ≫= k) h Q.
Proof.
  intros Hsrc Hk.
  assert (∃ s h1, FlattenBlockDevices src h = Some (s, h1) ∧ h ⊆ h1
                  ∧ strings_rel h1 s (common.FlattenBlockDevices v) ∧ fresh_in h s)
    as (s & h1 & Hrun & Hsub & Hrel & Hfresh).
  { unfold FlattenBlockDevices, common.FlattenBlockDevices, len, mbind, M_bind.
    rewrite (devices_of_rel _ _ _ Hsrc). case_bool_decide as Hlen.
    - exists EmptySlice, h. by split_and!.
    - destruct (flatten_loop_run (elems v) EmptySlice [] h) as (s & h1 & Hrun & Hsub & Hcases);
        [by right|].
      exists s, h1. destruct Hcases as [(Hnil & _)|(_ & Hrel & Hfresh)].
      + by rewrite Hnil in Hlen.
      + by split_and!. }
  destruct (Hk s h1 Hsub Hrel Hfresh) as (b & h2 & Hkrun & Hsub2 & HQ).
  exists b, h2. split; [|done]. unfold mbind, M_bind. by rewrite Hrun.
Qed.

Lemma sort_Strings_run (h : heap) s v :
  strings_rel h s v →
  ∃ h', sort_Strings s h = Some ((), h')
        ∧ strings_rel h' s (go.sort_Strings v)
        ∧ h' = match s with
               | Array p => <[p := OStrings (merge_sort String.le (elems v))]> h
               | _ => h
               end.
Proof.
  destruct s as [| |p], v as [[|x xs]|]; simpl; try done; try by (intros _; eexists).
  - intros Hp. eexists. unfold mbind, M_bind, load, store. rewrite Hp. simpl. rewrite Hp.
    split_and!; [done| |done]. by rewrite lookup_insert_eq.
  - intros Hp. eexists. unfold mbind, M_bind, load, store. rewrite Hp. simpl. rewrite Hp.
    split_and!; [done| |done]. by rewrite lookup_insert_eq.
Qed.

Lemma strings_rel_insert_ne (h : heap) s v p o :
  (∀ q, s = Array q → q ≠ p) → strings_rel h s v → strings_rel (<[p := o]> h) s v.
Proof.
  destruct s as [| |q], v as [[|x xs]|]; simpl; try done;
    intros Hne Hq; rewrite lookup_insert_ne; auto; intros ->; by eapply Hne.
Qed.

Lemma runs_sort_two {B} (h0 h : heap) s1 s2 v1 v2 (k : M B) Q :
  h0 ⊆ h → fresh_in h0 s1 → fresh_in h0 s2 →
  (∀ p, s1 = Array p → s2 ≠ Array p) →
  strings_rel h s1 v1 → strings_rel h s2 v2 →
  (∀ h3, h0 ⊆ h3 → strings_rel h3 s1 (go.sort_Strings v1) →
         strings_rel h3 s2 (go.sort_Strings v2) → runs h3 k h3 Q) →
  runs h0 (sort_Strings s1;; sort_Strings s2;; k) h Q.
Proof.
  intros Hsub Hf1 Hf2 Hne Hr1 Hr2 Hk.
  destruct (sort_Strings_run h s1 v1 Hr1) as (h1 & Hrun1 & Hr1' & Hh1).
  assert (h0 ⊆ h1) as Hsub1.
  { subst h1. destruct s1; auto. by apply insert_subseteq_r. }
  assert (strings_rel h1 s2 v2) as Hr2'.
  { subst h1. destruct s1 as [| |p]; auto. apply strings_rel_insert_ne; [|done].
    intros q -> ->. by eapply Hne. }
  destruct (sort_Strings_run h1 s2 v2 Hr2') as (h2 & Hrun2 & Hr2'' & Hh2).
  assert (h0 ⊆ h2) as Hsub2.
  { subst h2. destruct s2; auto. by apply insert_subseteq_r. }
  assert (strings_rel h2 s1 (go.sort_Strings v1)) as Hr1''.
  { subst h2. destruct s2 as [| |p]; auto. apply strings_rel_insert_ne; [|done].
    intros q -> ->. by eapply Hne. }
  destruct (Hk h2 Hsub2 Hr1'' Hr2'') as (b & h3 & Hkrun & Hsub3 & HQ).
  exists b, h3. split_and!; [|by etrans|done].
  unfold mbind, M_bind. by rewrite Hrun1, Hrun2.
Qed.

(** Two slices made one after the other do not share a backing array. *)
Lemma made_apart (h h1 : heap) s1 s2 v1 :
  strings_rel h1 s1 v1 → fresh_in h1 s2 → ∀ p, s1 = Array p → s2 ≠ Array p.
Proof.
  intros Hr Hf p -> ->. simpl in *. destruct v1; [|done]. by rewrite Hf in Hr.
Qed.

Lemma diffs_rel_empty (h : heap) : diffs_rel h ∅ ∅.
Proof. intros field. rewrite !lookup_empty. constructor. Qed.

Lemma diffs_rel_insert (h : heap) field d v out vout :
  diff_rel h d v → diffs_rel h out vout →
  diffs_rel h (<[field := d]> out) (<[field := v]> vout).
Proof.
  intros Hd Hout fld. destruct (decide (field = fld)) as [->|Hne].
  - rewrite !lookup_insert_eq. by constructor.
  - rewrite !lookup_insert_ne by done. apply Hout.
Qed.

Lemma diffs_rel_size (h : heap) out vout : diffs_rel h out vout → size out = size vout.
Proof.
  intros Hrel. rewrite <- !size_dom. f_equal. apply set_eq. intros field.
  rewrite !elem_of_dom. destruct (Hrel field); split; intros [? ?]; by eauto.
Qed.

Lemma compareField_string_rel (h : heap) field (a b : string) filter out vout :
  diffs_rel h out vout →
  diffs_rel h (compareField field a b filter out) (engine.compareField field a b filter vout).
Proof.
  intros Hrel. unfold compareField, engine.compareField.
  repeat case_match; try done. by apply diffs_rel_insert.
Qed.

Lemma compareField_bool_rel (h : heap) field (a b : bool) filter out vout :
  diffs_rel h out vout →
  diffs_rel h (compareField field a b filter out) (engine.compareField field a b filter vout).
Proof.
  intros Hrel. unfold compareField, engine.compareField.
  repeat case_match; try done. by apply diffs_rel_insert.
Qed.

Lemma runs_compareMap (h : heap) field a b va vb filter out vout :
  tags_rel h a va → tags_rel h b vb → diffs_rel h out vout →
  runs h (compareMap field a b filter out) h
    (λ out' h', diffs_rel h' out' (engine.compareMap field va vb filter vout)).
Proof.
  intros Ha Hb Hrel. unfold compareMap, engine.compareMap.
  destruct (filtered_out filter field); [by apply runs_ret|].
  eapply runs_read; [by apply DeepEqual_map_rel|].
  destruct (go.DeepEqual_map va vb); simpl; apply runs_ret; try done.
  by apply diffs_rel_insert.
Qed.

Lemma runs_compareSlice (h : heap) field a b va vb filter out vout :
  strings_rel h a va → strings_rel h b vb → diffs_rel h out vout →
  runs h (compareSlice field a b filter out) h
    (λ out' h', diffs_rel h' out' (engine.compareSlice field va vb filter vout)).
Proof.
  intros Ha Hb Hrel. unfold compareSlice, engine.compareSlice.
  destruct (filtered_out filter field); [by apply runs_ret|].
  eapply (runs_append _ _ NilSlice None); [by left|done|]. intros sa h1 Hsub1 Hsa Hfa.
  eapply (runs_append _ _ NilSlice None); [by left|by eapply strings_rel_mono|].
  intros sb h2 Hsub2 Hsb Hfb.
  eapply runs_sort_two with (v1 := go.append None va) (v2 := go.append None vb).
  - by etrans.
  - done.
  - by eapply fresh_in_mono.
  - by eapply made_apart.
  - by eapply strings_rel_mono.
  - done.
  - intros h3 Hsub3 Hsa' Hsb'.
    eapply runs_read; [by apply slices_Equal_rel|].
    assert (diffs_rel h3 out vout) by by eapply diffs_rel_mono.
    case_match; apply runs_ret; try done. by apply diffs_rel_insert.
Qed.

Lemma runs_seq {A B} (h : heap) (m : M A) (k : A → M B) (P : A → heap → Prop)
    (Q : B → heap → Prop) :
  runs h m h P →
  (∀ a h1, h ⊆ h1 → P a h1 → runs h1 (k a) h1 Q) →
  runs h (m ≫= k) h Q.
Proof.
  intros (a & h1 & Hm & Hsub & HP) Hk.
  destruct (Hk a h1 Hsub HP) as (b & h2 & Hkrun & Hsub2 & HQ).
  exists b, h2. split_and!; [|by etrans|done].
  unfold mbind, M_bind. by rewrite Hm.
Qed.

Section store_stages.
Context (h : heap) (filter : gmap string bool).
Context (out : gmap string FieldDiff) (vout : gmap string common.FieldDiff).
Context (Hout : diffs_rel h out vout).

Lemma runs_tags_stage field a t va vt :
  tags_rel h a va → tags_rel h t vt →
  runs h (if shouldCompare filter field then
            eq ← DeepEqual_map a t;
            if negb eq then compareMap field a t filter out else mret out
          else mret out) h
    (λ out' h', diffs_rel h' out'
       (if shouldCompare filter field && negb (go.DeepEqual_map va vt)
        then engine.compareMap field va vt filter vout else vout)).
Proof using Hout.
  intros Ha Ht. destruct (shouldCompare filter field); simpl; [|by apply runs_ret].
  eapply runs_read; [by apply DeepEqual_map_rel|].
  destruct (go.DeepEqual_map va vt); simpl; [by apply runs_ret|].
  by apply runs_compareMap.
Qed.

Lemma runs_security_groups_stage field a t va vt :
  strings_rel h a va → strings_rel h t vt →
  runs h (if shouldCompare filter field then
            awsSg ← append EmptySlice a;
            tfSg ← append EmptySlice t;
            sort_Strings awsSg;;
            sort_Strings tfSg;;
            eq ← slices_Equal awsSg tfSg;
            if negb eq then compareSlice field awsSg tfSg filter out else mret out
          else mret out) h
    (λ out' h', diffs_rel h' out'
       (if shouldCompare filter field then
          if negb (go.slices_Equal (go.sort_Strings (go.append (Some []) va))
                                   (go.sort_Strings (go.append (Some []) vt)))
          then engine.compareSlice field (go.sort_Strings (go.append (Some []) va))
                 (go.sort_Strings (go.append (Some []) vt)) filter vout
          else vout
        else vout)).
Proof using Hout.
  intros Ha Ht. destruct (shouldCompare filter field); [|by apply runs_ret].
  eapply (runs_append _ _ EmptySlice (Some [])); [by right|done|].
  intros sa h1 Hsub1 Hsa Hfa.
  eapply (runs_append _ _ EmptySlice (Some [])); [by right|by eapply strings_rel_mono|].
  intros sb h2 Hsub2 Hsb Hfb.
  eapply runs_sort_two with (v1 := go.append (Some []) va) (v2 := go.append (Some []) vt).
  - by etrans.
  - done.
  - by eapply fresh_in_mono.
  - by eapply made_apart.
  - by eapply strings_rel_mono.
  - done.
  - intros h3 Hsub3 Hsa' Hsb'.
    eapply runs_read; [by apply slices_Equal_rel|].
    assert (diffs_rel h3 out vout) by by eapply diffs_rel_mono.
    case_match; [|by apply runs_ret].
    by apply runs_compareSlice.
Qed.

Lemma runs_block_devices_stage field a t va vt :
  devices_rel h a va → devices_rel h t vt →
  runs h (if shouldCompare filter field then
            awsBdm ← FlattenBlockDevices a;
            tfBdm ← FlattenBlockDevices t;
            sort_Strings awsBdm;;
            sort_Strings tfBdm;;
            eq ← slices_Equal awsBdm tfBdm;
            if negb eq then compareSlice field awsBdm tfBdm filter out else mret out
          else mret out) h
    (λ out' h', diffs_rel h' out'
       (if shouldCompare filter field then
          if negb (go.slices_Equal (go.sort_Strings (common.FlattenBlockDevices va))
                                   (go.sort_Strings (common.FlattenBlockDevices vt)))
          then engine.compareSlice field (go.sort_Strings (common.FlattenBlockDevices va))
                 (go.sort_Strings (common.FlattenBlockDevices vt)) filter vout
          else vout
        else vout)).
Proof using Hout.
  intros Ha Ht. destruct (shouldCompare filter field); [|by apply runs_ret].
  eapply runs_FlattenBlockDevices; [done|]. intros sa h1 Hsub1 Hsa Hfa.
  eapply runs_FlattenBlockDevices; [by eapply devices_rel_mono|].
  intros sb h2 Hsub2 Hsb Hfb.
  eapply runs_sort_two with (v1 := common.FlattenBlockDevices va)
                            (v2 := common.FlattenBlockDevices vt).
  - by etrans.
  - done.
  - by eapply fresh_in_mono.
  - by eapply made_apart.
  - by eapply strings_rel_mono.
  - done.
  - intros h3 Hsub3 Hsa' Hsb'.
    eapply runs_read; [by apply slices_Equal_rel|].
    assert (diffs_rel h3 out vout) by by eapply diffs_rel_mono.
    case_match; [|by apply runs_ret].
    by apply runs_compareSlice.
Qed.
End store_stages.

Lemma runs_compareInstances (h : heap) awsInst tfInst va vt filter :
  instance_rel h awsInst va → instance_rel h tfInst vt →
  runs h (compareInstances awsInst tfInst filter) h
    (λ r h', result_rel h' r (engine.compareInstances va vt filter)).
Proof.
  intros (a & Hpa & Ha) (t & Hpt & Ht).
  unfold compareInstances.
  eapply runs_read; [by apply instance_at_rel|].
  eapply runs_read; [by apply instance_at_rel|].
  clear Hpa Hpt. unfold fields_rel in Ha, Ht. destruct_and!.
  cbv zeta.
  repeat match goal with H : _ = _ |- _ => rewrite H; clear H end.
  eapply runs_seq.
  { apply runs_tags_stage with (va := common.Tags va) (vt := common.Tags vt); [|done|done].
    repeat first [apply compareField_string_rel | apply compareField_bool_rel].
    apply diffs_rel_empty. }
  intros d10 h1 Hsub1 Hd10. eapply runs_seq.
  { apply runs_security_groups_stage with (va := common.SecurityGroups va)
                                          (vt := common.SecurityGroups vt);
      [exact Hd10|by eapply strings_rel_mono..]. }
  intros d11 h2 Hsub2 Hd11. eapply runs_seq.
  { apply runs_block_devices_stage with (va := common.BlockDeviceMappings va)
                                        (vt := common.BlockDeviceMappings vt);
      [exact Hd11|eapply devices_rel_mono; [|done]; by etrans..]. }
  intros d12 h3 Hsub3 Hd12. apply runs_ret; [done|].
  split_and!.
  - reflexivity.
  - cbn [drift_detected differences]. rewrite (diffs_rel_size _ _ _ Hd12). reflexivity.
  - exact Hd12.
Qed.

Lemma tfMap_rel_mono (h h' : heap) m v : h ⊆ h' → tfMap_rel h m v → tfMap_rel h' m v.
Proof.
  intros Hsub Hrel id. destruct (Hrel id); constructor; eauto using instance_rel_mono.
Qed.

Lemma instances_rel_mono (h h' : heap) ps vs :
  h ⊆ h' → Forall2 (instance_rel h) ps vs → Forall2 (instance_rel h') ps vs.
Proof. intros Hsub Hall. eapply Forall2_impl; eauto using instance_rel_mono. Qed.

Lemma runs_build_tfMap (h : heap) tfInstances vtfs : ∀ m vm,
  Forall2 (instance_rel h) tfInstances vtfs → tfMap_rel h m vm →
  runs h (build_tfMap m tfInstances) h
    (λ m' h', tfMap_rel h' m'
       (foldl (λ tfMap tfInst, <[common.InstanceID tfInst := tfInst]> tfMap) vm vtfs)).
Proof.
  intros m vm Hall. revert m vm.
  induction Hall as [|p v ps vs Hp Hps IH]; intros m vm Hm; simpl.
  { by apply runs_ret. }
  destruct Hp as (i & Hi & Hf) eqn:Hpeq. clear Hpeq.
  eapply runs_read; [by apply instance_at_rel|].
  apply IH. intros id.
  assert (InstanceID i = common.InstanceID v) as -> by apply Hf.
  destruct (decide (common.InstanceID v = id)) as [->|Hne].
  - rewrite !lookup_insert_eq. constructor. by exists i.
  - rewrite !lookup_insert_ne by done. apply Hm.
Qed.

Lemma missing_in_terraform_rel (h : heap) i v :
  InstanceID i = common.InstanceID v →
  result_rel h (missing_in_terraform i) (dispatcher.missing_in_terraform v).
Proof.
  intros Hid. split_and!; [done|done|]. simpl. intros field.
  destruct (decide (field = "terraform_state")) as [->|Hne].
  - rewrite !lookup_singleton_eq. by constructor.
  - rewrite !lookup_singleton_ne by done. constructor.
Qed.

Lemma runs_handle (h : heap) tfMap vtfMap filter awsInst va :
  instance_rel h awsInst va → tfMap_rel h tfMap vtfMap →
  runs h (handle tfMap filter awsInst) h
    (λ r h', result_rel h' r (dispatcher.handle vtfMap filter va)).
Proof.
  intros Ha Hm. destruct Ha as (i & Hi & Hf) eqn:Haeq. clear Haeq.
  unfold handle, dispatcher.handle.
  eapply runs_read; [by apply instance_at_rel|].
  assert (InstanceID i = common.InstanceID va) as Hid by apply Hf. rewrite Hid.
  destruct (Hm (common.InstanceID va)) as [tfInst vt Ht|].
  - by apply runs_compareInstances.
  - apply runs_ret; [done|]. by apply missing_in_terraform_rel.
Qed.

Lemma runs_handle_all (h : heap) tfMap vtfMap filter awsInstances vaws :
  Forall2 (instance_rel h) awsInstances vaws → tfMap_rel h tfMap vtfMap →
  runs h (handle_all tfMap filter awsInstances) h
    (λ rs h', Forall2 (result_rel h') rs (dispatcher.handle vtfMap filter <$> vaws)).
Proof.
  intros Hall. revert h Hall.
  induction awsInstances as [|p ps IH] in vaws |- *; intros h Hall Hm;
    inversion Hall as [|? v ? vs Hp Hps]; subst; simpl.
  { apply runs_ret; [done|]. constructor. }
  eapply runs_seq; [by apply runs_handle|].
  intros r h1 Hsub1 Hr. cbv beta in Hr.
  eapply runs_seq.
  { apply IH; [by eapply instances_rel_mono|by eapply tfMap_rel_mono]. }
  intros rs h2 Hsub2 Hrs. cbv beta in Hrs. apply runs_ret; [done|].
  constructor; [by eapply result_rel_mono|done].
Qed.

Lemma runs_CompareAllInstances (h : heap) awsInstances tfInstances vaws vtfs filter :
  Forall2 (instance_rel h) awsInstances vaws → Forall2 (instance_rel h) tfInstances vtfs →
  runs h (CompareAllInstances awsInstances tfInstances filter) h
    (λ rs h', Forall2 (result_rel h') rs
                (dispatcher.handle (dispatcher.build_tfMap vtfs) filter <$> vaws)).
Proof.
  intros Haws Htfs. unfold CompareAllInstances.
  eapply runs_seq.
  { apply runs_build_tfMap; [done|]. intros id. rewrite !lookup_empty. constructor. }
  intros m h1 Hsub1 Hm. cbv beta in Hm.
  apply runs_handle_all; [by eapply instances_rel_mono|done].
Qed.

End store_facts.

(** C9.  In a store that holds the two instances with their security
    groups, tag maps and block devices, [compareInstances] runs to a result
    and a final store in which every cell of the initial store is unchanged
    ([h ⊆ h']): both instances and their collections are as before, all
    sorting having been done in arrays allocated by the call; the result is
    that of the comparator over values.  The same holds for the work of the
    workers over any lists of instances. *)
Theorem C9_inputs_unchanged (h : gmap memory.addr memory.object)
    (awsInst tfInst : memory.addr) (va vt : EC2Instance)
    (awsInstances tfInstances : list memory.addr) (vaws vtfs : list EC2Instance)
    (filter : gmap string bool) :
  store.instance_rel h awsInst va → store.instance_rel h tfInst vt →
  Forall2 (store.instance_rel h) awsInstances vaws →
  Forall2 (store.instance_rel h) tfInstances vtfs →
  (∃ r h', memory.compareInstances awsInst tfInst filter h = Some (r, h')
           ∧ h ⊆ h'
           ∧ store.instance_rel h' awsInst va ∧ store.instance_rel h' tfInst vt
           ∧ store.result_rel h' r (compareInstances va vt filter))
  ∧ (∃ rs h', memory.CompareAllInstances awsInstances tfInstances filter h = Some (rs, h')
              ∧ h ⊆ h'
              ∧ Forall2 (store.instance_rel h') awsInstances vaws
              ∧ Forall2 (store.instance_rel h') tfInstances vtfs
              ∧ Forall2 (store.result_rel h') rs
                  (handle (build_tfMap vtfs) filter <$> vaws)).
Proof.
  intros Ha Ht Haws Htfs. split.
  - destruct (store_facts.runs_compareInstances h awsInst tfInst va vt filter Ha Ht)
      as (r & h' & Hrun & Hsub & Hr).
    exists r, h'. split_and!; eauto using store_facts.instance_rel_mono.
  - destruct (store_facts.runs_CompareAllInstances h awsInstances tfInstances vaws vtfs
                filter Haws Htfs) as (rs & h' & Hrun & Hsub & Hrs).
    exists rs, h'. split_and!; eauto using store_facts.instances_rel_mono.
Qed.

Lemma C9_inputs_unchanged_witness :
  store.instance_rel store.example_store 1%positive i_1_observed
  ∧ store.instance_rel store.example_store 2%positive i_1_declared
  ∧ ∃ r h', memory.compareInstances 1%positive 2%positive ∅ store.example_store = Some (r, h')
            ∧ store.example_store ⊆ h'
            ∧ store.instance_rel h' 1%positive i_1_observed
            ∧ store.instance_rel h' 2%positive i_1_declared
            ∧ store.result_rel h' r (compareInstances i_1_observed i_1_declared ∅).
Proof.
  assert (store.instance_rel store.example_store 1%positive i_1_observed) as Ha.
  { eexists. split; [reflexivity|]. unfold store.fields_rel. split_and!; reflexivity. }
  assert (store.instance_rel store.example_store 2%positive i_1_declared) as Ht.
  { eexists. split; [reflexivity|]. unfold store.fields_rel. split_and!; reflexivity. }
  split_and!; [exact Ha|exact Ht|].
  apply (C9_inputs_unchanged store.example_store 1%positive 2%positive i_1_observed i_1_declared
           [1%positive; 2%positive] [2%positive] [i_1_observed; i_1_declared] [i_1_declared] ∅
           Ha Ht).
  - repeat constructor; assumption.
  - repeat constructor; assumption.
Defined.

(** * Further properties of the code *)

(** ** The comparator: an instance against itself, and the two sides
    exchanged *)

Lemma DeepEqual_map_eq a b : DeepEqual_map a b = bool_decide (a = b).
Proof.
  destruct a as [m1|], b as [m2|]; simpl; try done.
  apply bool_decide_ext. split; [by intros ->|by intros [= ->]].
Qed.

Lemma compareField_same {T} `{EqDecision T, Boxed T} field (a : T) filter :
  compareField field a a filter = id.
Proof.
  unfold compareField. rewrite (bool_decide_eq_false_2 (a ≠ a)) by auto.
  by destruct (filtered_out filter field).
Qed.

Lemma slices_Equal_refl s : slices_Equal s s = true.
Proof. unfold slices_Equal. by apply bool_decide_eq_true_2. Qed.

(** An instance compared with itself has no drift, under every filter. *)
Theorem compareInstances_same (awsInst : EC2Instance) (filter : gmap string bool) :
  compareInstances awsInst awsInst filter
  = {| instance_id := InstanceID awsInst; drift_detected := false; differences := ∅ |}.
Proof.
  unfold compareInstances.
  rewrite !compareField_same, !slices_Equal_refl, DeepEqual_map_eq.
  rewrite (bool_decide_eq_true_2 (Tags awsInst = Tags awsInst)) by done.
  rewrite andb_false_r. cbn [negb id].
  destruct (shouldCompare filter "security_groups"),
           (shouldCompare filter "block_device_mappings"); reflexivity.
Qed.

Section swap.
Context (filter : gmap string bool) (out : gmap string FieldDiff).

Lemma compareField_swap {T} `{EqDecision T, Boxed T} field (a b : T) :
  compareField field b a filter (swap_diff <$> out)
  = swap_diff <$> compareField field a b filter out.
Proof.
  unfold compareField. destruct (filtered_out filter field); [done|].
  repeat case_bool_decide; try done; try congruence. by rewrite fmap_insert.
Qed.

Lemma DeepEqual_map_sym a b : DeepEqual_map a b = DeepEqual_map b a.
Proof. rewrite !DeepEqual_map_eq. apply bool_decide_ext. split; congruence. Qed.

Lemma slices_Equal_sym a b : slices_Equal a b = slices_Equal b a.
Proof. unfold slices_Equal. apply bool_decide_ext. split; congruence. Qed.

Lemma compareMap_swap field a b :
  compareMap field b a filter (swap_diff <$> out)
  = swap_diff <$> compareMap field a b filter out.
Proof.
  unfold compareMap. destruct (filtered_out filter field); [done|].
  rewrite (DeepEqual_map_sym b a). destruct (DeepEqual_map a b); simpl; [done|].
  by rewrite fmap_insert.
Qed.

Lemma compareSlice_swap field a b :
  compareSlice field b a filter (swap_diff <$> out)
  = swap_diff <$> compareSlice field a b filter out.
Proof.
  unfold compareSlice. destruct (filtered_out filter field); [done|].
  cbv zeta. rewrite (slices_Equal_sym (sort_Strings (append None b))).
  destruct (slices_Equal _ _); simpl; [done|]. by rewrite fmap_insert.
Qed.
End swap.

Lemma differences_swap awsInst tfInst filter :
  differences (compareInstances tfInst awsInst filter)
  = swap_diff <$> differences (compareInstances awsInst tfInst filter).
Proof.
  unfold compareInstances; cbn [differences].
  rewrite (DeepEqual_map_sym (Tags tfInst)).
  rewrite (slices_Equal_sym (sort_Strings (append (Some []) (SecurityGroups tfInst)))).
  rewrite (slices_Equal_sym (sort_Strings (FlattenBlockDevices (BlockDeviceMappings tfInst)))).
  repeat match goal with
         | |- context [if ?c then _ else _] =>
             lazymatch c with
             | shouldCompare _ _ => destruct c
             | negb _ => destruct c
             | _ && _ => destruct c
             end
         end;
    repeat first [ rewrite <- compareSlice_swap | rewrite <- compareMap_swap
                 | rewrite <- compareField_swap ];
    rewrite fmap_empty; reflexivity.
Qed.

(** Exchanging the two instances exchanges the two sides of every
    difference and changes neither the fields reported nor the flag. *)
Theorem compareInstances_swap (awsInst tfInst : EC2Instance) (filter : gmap string bool) :
  differences (compareInstances tfInst awsInst filter)
  = swap_diff <$> differences (compareInstances awsInst tfInst filter)
  ∧ drift_detected (compareInstances tfInst awsInst filter)
    = drift_detected (compareInstances awsInst tfInst filter).
Proof.
  split; [apply differences_swap|].
  change (drift_detected (compareInstances tfInst awsInst filter))
    with (bool_decide (0 < size (differences (compareInstances tfInst awsInst filter)))).
  by rewrite differences_swap, map_size_fmap.
Qed.

Ltac skip_other_field Hfld :=
  first
    [ rewrite compareField_lookup_ne
        by (intros <-; apply Hfld, (bool_decide_unpack _); vm_compute; exact I)
    | rewrite compareMap_lookup_ne
        by (intros <-; apply Hfld, (bool_decide_unpack _); vm_compute; exact I)
    | rewrite compareSlice_lookup_ne
        by (intros <-; apply Hfld, (bool_decide_unpack _); vm_compute; exact I) ].

Lemma differences_outside_schema (awsInst tfInst : EC2Instance) (filter : gmap string bool)
    (fld : string) :
  fld ∉ schema → differences (compareInstances awsInst tfInst filter) !! fld = None.
Proof.
  intros Hfld. unfold compareInstances; cbn [differences].
  repeat match goal with
         | |- context [if ?c then _ else _] => destruct c
         end;
    repeat skip_other_field Hfld; apply lookup_empty.
Qed.

(** The names under which differences are reported are among the twelve
    field names of the comparator, so that a result has at most twelve
    differences. *)
Theorem differences_within_schema (awsInst tfInst : EC2Instance) (filter : gmap string bool) :
  dom (differences (compareInstances awsInst tfInst filter)) ⊆ list_to_set schema
  ∧ (size (differences (compareInstances awsInst tfInst filter)) ≤ 12)%nat.
Proof.
  assert (dom (differences (compareInstances awsInst tfInst filter))
          ⊆@{gset string} list_to_set schema) as Hdom.
  { intros fld [d Hd]%elem_of_dom. apply elem_of_list_to_set.
    destruct (decide (fld ∈ schema)) as [|Hfld]; [done|].
    by rewrite differences_outside_schema in Hd. }
  split; [done|]. rewrite <- size_dom.
  trans (size (list_to_set schema : gset string)); [|by vm_compute].
  by apply subseteq_size.
Qed.

Lemma sort_eq_Permutation (l l' : list string) :
  merge_sort String.le l = merge_sort String.le l' ↔ l ≡ₚ l'.
Proof.
  split; [|apply sort_Permutation].
  intros Heq. rewrite <- (merge_sort_Permutation String.le l), Heq.
  apply merge_sort_Permutation.
Qed.

Section none.
Context (filter : gmap string bool) (out : gmap string FieldDiff).

Lemma shouldCompare_true_iff field :
  shouldCompare filter field = true ↔ filtered_out filter field = false.
Proof. rewrite filtered_out_shouldCompare. by destruct (shouldCompare filter field). Qed.

Lemma compareField_empty {T} `{EqDecision T, Boxed T} field (a b : T) :
  compareField field a b filter out = ∅
  ↔ out = ∅ ∧ (shouldCompare filter field = true → a = b).
Proof.
  unfold compareField. rewrite shouldCompare_true_iff.
  destruct (filtered_out filter field); [naive_solver|].
  case_bool_decide as Hab.
  - split; [by intros ?%insert_non_empty|]. intros [_ Heq]. by destruct Hab; auto.
  - naive_solver.
Qed.

Lemma compareMap_empty field a b :
  compareMap field a b filter out = ∅
  ↔ out = ∅ ∧ (shouldCompare filter field = true → a = b).
Proof.
  unfold compareMap. rewrite shouldCompare_true_iff, DeepEqual_map_eq.
  destruct (filtered_out filter field); [naive_solver|].
  case_bool_decide as Hab; simpl.
  - naive_solver.
  - split; [by intros ?%insert_non_empty|]. intros [_ Heq]. by destruct Hab; auto.
Qed.

Lemma compareSlice_empty field a b :
  compareSlice field a b filter out = ∅
  ↔ out = ∅ ∧ (shouldCompare filter field = true → elems a ≡ₚ elems b).
Proof.
  unfold compareSlice. rewrite shouldCompare_true_iff. cbv zeta.
  destruct (filtered_out filter field); [naive_solver|].
  unfold slices_Equal. rewrite !elems_sorted_copy by done.
  case_bool_decide as Hab; simpl.
  - apply sort_eq_Permutation in Hab. naive_solver.
  - split; [by intros ?%insert_non_empty|]. intros [_ Heq].
    destruct Hab. apply sort_eq_Permutation. auto.
Qed.
End none.

Section stage_none.
Context (filter : gmap string bool) (m : gmap string FieldDiff).

Lemma tags_stage_empty field x y :
  (if shouldCompare filter field && negb (DeepEqual_map x y)
   then compareMap field x y filter m else m) = ∅
  ↔ m = ∅ ∧ (shouldCompare filter field = true → x = y).
Proof.
  destruct (shouldCompare filter field) eqn:Hsc; simpl; [|naive_solver].
  rewrite DeepEqual_map_eq. case_bool_decide; simpl; [naive_solver|].
  rewrite compareMap_empty, Hsc. naive_solver.
Qed.

Lemma slice_stage_empty field sa sb :
  (if shouldCompare filter field
   then if negb (slices_Equal sa sb) then compareSlice field sa sb filter m else m
   else m) = ∅
  ↔ m = ∅ ∧ (shouldCompare filter field = true → elems sa ≡ₚ elems sb).
Proof.
  destruct (shouldCompare filter field) eqn:Hsc; simpl; [|naive_solver].
  unfold slices_Equal at 1. case_bool_decide as Heq; simpl.
  - rewrite Heq. naive_solver.
  - rewrite compareSlice_empty, Hsc. naive_solver.
Qed.
End stage_none.

Lemma drift_detected_false_iff (r : DriftResult) :
  drift_detected r = bool_decide (0 < size (differences r)) →
  drift_detected r = false ↔ differences r = ∅.
Proof.
  intros ->. rewrite bool_decide_eq_false, <- map_size_empty_iff. lia.
Qed.

Lemma differences_empty_iff (awsInst tfInst : EC2Instance) (filter : gmap string bool) :
  differences (compareInstances awsInst tfInst filter) = ∅
  ↔ (shouldCompare filter "instance_type" = true → InstanceType awsInst = InstanceType tfInst)
    ∧ (shouldCompare filter "image_id" = true → ImageID awsInst = ImageID tfInst)
    ∧ (shouldCompare filter "key_name" = true → KeyName awsInst = KeyName tfInst)
    ∧ (shouldCompare filter "subnet_id" = true → SubnetID awsInst = SubnetID tfInst)
    ∧ (shouldCompare filter "vpc_id" = true → VpcID awsInst = VpcID tfInst)
    ∧ (shouldCompare filter "iam_instance_profile" = true →
         IamInstanceProfile awsInst = IamInstanceProfile tfInst)
    ∧ (shouldCompare filter "monitoring" = true → Monitoring awsInst = Monitoring tfInst)
    ∧ (shouldCompare filter "architecture" = true → Architecture awsInst = Architecture tfInst)
    ∧ (shouldCompare filter "virtualization_type" = true →
         VirtualizationType awsInst = VirtualizationType tfInst)
    ∧ (shouldCompare filter "tags" = true → Tags awsInst = Tags tfInst)
    ∧ (shouldCompare filter "security_groups" = true →
         elems (SecurityGroups awsInst) ≡ₚ elems (SecurityGroups tfInst))
    ∧ (shouldCompare filter "block_device_mappings" = true →
         flat <$> elems (BlockDeviceMappings awsInst)
         ≡ₚ flat <$> elems (BlockDeviceMappings tfInst)).
Proof.
  unfold compareInstances; cbn [differences].
  rewrite !slice_stage_empty, tags_stage_empty, !compareField_empty.
  rewrite !elems_sorted_copy by done. rewrite !FlattenBlockDevices_elems.
  cbn [sort_Strings fmap option_fmap option_map elems default from_option id].
  rewrite !(merge_sort_Permutation String.le).
  split; [intros Hall; destruct_and!; split_and!; assumption|].
  intros Hall; destruct_and!; split_and!; try assumption. reflexivity.
Qed.

(** No drift is reported exactly when every compared field agrees: the
    comparable fields and the tags are equal, the security groups are the
    same up to the order, and so are the flattened block devices. *)
Theorem no_drift_iff (awsInst tfInst : EC2Instance) (filter : gmap string bool) :
  drift_detected (compareInstances awsInst tfInst filter) = false
  ↔ (shouldCompare filter "instance_type" = true → InstanceType awsInst = InstanceType tfInst)
    ∧ (shouldCompare filter "image_id" = true → ImageID awsInst = ImageID tfInst)
    ∧ (shouldCompare filter "key_name" = true → KeyName awsInst = KeyName tfInst)
    ∧ (shouldCompare filter "subnet_id" = true → SubnetID awsInst = SubnetID tfInst)
    ∧ (shouldCompare filter "vpc_id" = true → VpcID awsInst = VpcID tfInst)
    ∧ (shouldCompare filter "iam_instance_profile" = true →
         IamInstanceProfile awsInst = IamInstanceProfile tfInst)
    ∧ (shouldCompare filter "monitoring" = true → Monitoring awsInst = Monitoring tfInst)
    ∧ (shouldCompare filter "architecture" = true → Architecture awsInst = Architecture tfInst)
    ∧ (shouldCompare filter "virtualization_type" = true →
         VirtualizationType awsInst = VirtualizationType tfInst)
    ∧ (shouldCompare filter "tags" = true → Tags awsInst = Tags tfInst)
    ∧ (shouldCompare filter "security_groups" = true →
         elems (SecurityGroups awsInst) ≡ₚ elems (SecurityGroups tfInst))
    ∧ (shouldCompare filter "block_device_mappings" = true →
         flat <$> elems (BlockDeviceMappings awsInst)
         ≡ₚ flat <$> elems (BlockDeviceMappings tfInst)).
Proof.
  rewrite drift_detected_false_iff by reflexivity. apply differences_empty_iff.
Qed.

Lemma string_app_assoc (s1 s2 s3 : string) : (s1 +:+ s2) +:+ s3 = s1 +:+ (s2 +:+ s3).
Proof.
  induction s1 as [|c s1 IH]; [reflexivity|].
  change (String c ((s1 +:+ s2) +:+ s3) = String c (s1 +:+ (s2 +:+ s3))). by rewrite IH.
Qed.

Lemma string_app_length (s1 s2 : string) :
  String.length (s1 +:+ s2) = String.length s1 + String.length s2.
Proof.
  induction s1 as [|c s1 IH]; [reflexivity|].
  change (S (String.length (s1 +:+ s2)) = S (String.length s1) + String.length s2).
  by rewrite IH.
Qed.

Lemma block_device_mappings_not_stored awsInst tfInst filter :
  flat <$> elems (BlockDeviceMappings awsInst) ≡ₚ flat <$> elems (BlockDeviceMappings tfInst) →
  differences (compareInstances awsInst tfInst filter) !! "block_device_mappings" = None.
Proof.
  intros Hperm. unfold compareInstances; cbn [differences].
  rewrite !sorted_copy_Some, !FlattenBlockDevices_elems.
  cbn [sort_Strings fmap option_fmap option_map].
  pose proof (sort_Permutation _ _ Hperm) as Hsort. unfold flat in Hsort.
  rewrite Hsort, slices_Equal_refl. cbn [negb].
  repeat match goal with
         | |- context [if ?c then _ else _] => destruct c
         end;
    repeat skip_stage; apply lookup_empty.
Qed.

(** [FlattenBlockDevices] joins the two names with a bar and does not
    escape it: two different lists of devices whose names and volumes
    split a string at different bars flatten to the same strings, and no
    difference is reported between them. *)
Theorem flatten_collision (awsInst tfInst : EC2Instance) (filter : gmap string bool)
    (n v w : string) :
  let observed := [ {| DeviceName := n +:+ "|" +:+ v; VolumeID := w |} ] in
  let declared := [ {| DeviceName := n; VolumeID := v +:+ "|" +:+ w |} ] in
  observed ≠ declared
  ∧ differences
      (compareInstances
         (with_collections awsInst (SecurityGroups awsInst) (Some observed))
         (with_collections tfInst (SecurityGroups tfInst) (Some declared)) filter)
      !! "block_device_mappings" = None.
Proof.
  intros observed declared. split.
  - intros [= Hn _]. apply (f_equal String.length) in Hn.
    rewrite !string_app_length in Hn. cbn in Hn. lia.
  - apply block_device_mappings_not_stored. cbn.
    unfold flat; cbn. by rewrite !string_app_assoc.
Qed.

(** ** The comparator: the entries of the differences *)

Ltac past_stage :=
  repeat first
    [ rewrite compareField_lookup_ne by done
    | rewrite compareMap_lookup_ne by done
    | rewrite compareSlice_lookup_ne by done
    | match goal with |- context [(if ?c then _ else _) !! _] => destruct c end ].

Lemma compareField_lookup {T} `{EqDecision T, Boxed T} field (a b : T) filter out :
  out !! field = None →
  compareField field a b filter out !! field = scalar_diff filter field a b.
Proof.
  intros Hout. unfold compareField, scalar_diff. rewrite filtered_out_shouldCompare.
  destruct (shouldCompare filter field); simpl; [|done].
  case_bool_decide; [|done]. by rewrite lookup_insert_eq.
Qed.

Ltac scalar_entry :=
  unfold compareInstances; cbn [differences]; past_stage;
  (rewrite compareField_lookup; [reflexivity|]); past_stage; apply lookup_empty.

(** The entries of the nine fields of a comparable type: each is present
    exactly when its field is compared and the two values differ, and
    then holds the two values. *)
Theorem differences_scalar (awsInst tfInst : EC2Instance) (filter : gmap string bool) :
  let d := differences (compareInstances awsInst tfInst filter) in
  d !! "instance_type"
    = scalar_diff filter "instance_type" (InstanceType awsInst) (InstanceType tfInst)
  ∧ d !! "image_id" = scalar_diff filter "image_id" (ImageID awsInst) (ImageID tfInst)
  ∧ d !! "key_name" = scalar_diff filter "key_name" (KeyName awsInst) (KeyName tfInst)
  ∧ d !! "subnet_id" = scalar_diff filter "subnet_id" (SubnetID awsInst) (SubnetID tfInst)
  ∧ d !! "vpc_id" = scalar_diff filter "vpc_id" (VpcID awsInst) (VpcID tfInst)
  ∧ d !! "iam_instance_profile"
    = scalar_diff filter "iam_instance_profile"
        (IamInstanceProfile awsInst) (IamInstanceProfile tfInst)
  ∧ d !! "monitoring" = scalar_diff filter "monitoring" (Monitoring awsInst) (Monitoring tfInst)
  ∧ d !! "architecture"
    = scalar_diff filter "architecture" (Architecture awsInst) (Architecture tfInst)
  ∧ d !! "virtualization_type"
    = scalar_diff filter "virtualization_type"
        (VirtualizationType awsInst) (VirtualizationType tfInst).
Proof.
  cbv zeta. split_and!; scalar_entry.
Qed.

Lemma differences_tags (awsInst tfInst : EC2Instance) (filter : gmap string bool) :
  differences (compareInstances awsInst tfInst filter) !! "tags"
  = if shouldCompare filter "tags" && negb (DeepEqual_map (common.Tags awsInst) (common.Tags tfInst))
    then Some {| AWS := AMap (common.Tags awsInst); Terraform := AMap (common.Tags tfInst) |}
    else None.
Proof.
  unfold compareInstances; cbn [differences].
  set (d9 := compareField "virtualization_type" _ _ _ _).
  assert (d9 !! "tags" = None) as Hd9.
  { subst d9. past_stage. apply lookup_empty. }
  clearbody d9.
  destruct (shouldCompare filter "tags") eqn:Hsc; simpl.
  - destruct (DeepEqual_map _ _) eqn:Heq; simpl.
    + by past_stage.
    + past_stage; unfold compareMap; rewrite filtered_out_shouldCompare, Hsc, Heq; simpl;
        by rewrite lookup_insert_eq.
  - by past_stage.
Qed.

Lemma drift_detected_size (awsInst tfInst : EC2Instance) (filter : gmap string bool) :
  drift_detected (compareInstances awsInst tfInst filter)
  = bool_decide (0 < size (differences (compareInstances awsInst tfInst filter))).
Proof. reflexivity. Qed.

Lemma drift_detected_entry (awsInst tfInst : EC2Instance) (filter : gmap string bool) fld :
  is_Some (differences (compareInstances awsInst tfInst filter) !! fld) →
  drift_detected (compareInstances awsInst tfInst filter) = true.
Proof.
  intros [d Hd]. rewrite drift_detected_size. apply bool_decide_eq_true.
  destruct (decide (size (differences (compareInstances awsInst tfInst filter)) = 0))
    as [Hsize%map_size_empty_iff|]; [|lia].
  by rewrite Hsize, lookup_empty in Hd.
Qed.

Lemma differences_vpc_id (awsInst tfInst : EC2Instance) (filter : gmap string bool) :
  differences (compareInstances awsInst tfInst filter) !! "vpc_id"
  = scalar_diff filter "vpc_id" (VpcID awsInst) (VpcID tfInst).
Proof. scalar_entry. Qed.


(** An instance against its [cloneInstance]: the copy drifts from the
    original exactly when the original has nil tags and the tags are
    compared, the copy having an empty map instead. *)
Theorem cloneInstance_drift (i : EC2Instance) (filter : gmap string bool) :
  drift_detected (compareInstances i (cloneInstance i) filter) = true
  ↔ Tags i = None ∧ shouldCompare filter "tags" = true.
Proof.
  rewrite <- not_false_iff_true, drift_detected_false_iff by reflexivity.
  rewrite differences_empty_iff. cbn [cloneInstance InstanceType ImageID KeyName SubnetID VpcID
    IamInstanceProfile Monitoring Architecture VirtualizationType Tags SecurityGroups
    BlockDeviceMappings].
  assert (∀ A (s : option (list A)), elems (append (Some []) s) = elems s) as Hcopy.
  { by intros A [l|]. }
  rewrite !Hcopy.
  destruct (Tags i) as [m|]; simpl.
  - split; [|by intros [[=] _]]. intros Hnot. destruct Hnot. by split_and!.
  - destruct (shouldCompare filter "tags").
    + split; [done|]. intros _ (_ & _ & _ & _ & _ & _ & _ & _ & _ & Htags & _).
      by specialize (Htags eq_refl).
    + split; [|by intros [_ [=]]]. intros Hnot. destruct Hnot. by split_and!.
Qed.

(** ** The worker pool: the table, the order of the results and cancellation *)

Lemma build_tfMap_from_Some tfInstances : ∀ (m : gmap string EC2Instance) id tfInst,
  m !! id = Some tfInst → id ∉ InstanceID <$> tfInstances →
  foldl (λ tfMap tfInst, <[InstanceID tfInst := tfInst]> tfMap) m tfInstances !! id
  = Some tfInst.
Proof.
  induction tfInstances as [|t l IH]; intros m id tfInst Hm Hid; [done|].
  simpl. apply IH.
  - rewrite lookup_insert_ne; [done|]. intros Heq. apply Hid. rewrite <- Heq. left.
  - intros Hin. apply Hid. by right.
Qed.

(** When several Terraform instances carry the same identifier, the last
    of them is the one an observed instance is compared with. *)
Theorem build_tfMap_last_wins (before after : list EC2Instance) (tfInst : EC2Instance) :
  InstanceID tfInst ∉ InstanceID <$> after →
  build_tfMap (before ++ tfInst :: after) !! InstanceID tfInst = Some tfInst.
Proof.
  intros Hafter. unfold build_tfMap. rewrite foldl_app. simpl.
  apply build_tfMap_from_Some; [|done]. apply lookup_insert_eq.
Qed.

Lemma build_tfMap_last_wins_witness :
  InstanceID i_1_declared ∉ InstanceID <$> [i_2]
  ∧ build_tfMap ([i_1_observed] ++ i_1_declared :: [i_2]) !! InstanceID i_1_declared
    = Some i_1_declared.
Proof.
  assert (InstanceID i_1_declared ∉ InstanceID <$> [i_2]) as Hafter.
  { intros Hin. apply list_elem_of_singleton in Hin. discriminate Hin. }
  split; [exact Hafter|].
  exact (build_tfMap_last_wins [i_1_observed] [i_2] i_1_declared Hafter).
Defined.

Section runs.
Context (tfMap : gmap string EC2Instance) (filter : gmap string bool).

(** Worker 0 alone takes every instance in turn. *)
Lemma worker_0_serves c ws awsInstances : ∀ rs,
  ws !! 0 = Some AtSelect →
  rtc (step tfMap filter)
    (St c (Feeding awsInstances) ws false (Collecting rs))
    (St c (Feeding []) ws false (Collecting (rs ++ (handle tfMap filter <$> awsInstances)))).
Proof.
  induction awsInstances as [|a rest IH]; intros rs Hws.
  { simpl. rewrite app_nil_r. apply rtc_refl. }
  eapply rtc_l; [by apply (worker_receive _ _ _ _ _ _ 0)|].
  eapply rtc_l.
  { apply (worker_send _ _ _ _ _ 0 (handle tfMap filter a)).
    destruct ws; [done|]. done. }
  assert (<[0:=AtSelect]> (<[0:=AtSend (handle tfMap filter a)]> ws) = ws) as ->.
  { destruct ws as [|w ws]; [done|]. simpl in *. by simplify_eq. }
  replace (rs ++ (handle tfMap filter <$> a :: rest))
    with ((rs ++ [handle tfMap filter a]) ++ (handle tfMap filter <$> rest))
    by (by rewrite <- app_assoc).
  by apply IH.
Qed.
End runs.

(** Whatever the context, all the results in the order of the input are a
    possible outcome; with the context cancelled before the call, so is the
    empty list. *)
Theorem cancellation_is_best_effort (ctx_done : bool)
    (awsInstances tfInstances : list EC2Instance) (filter : gmap string bool) :
  CompareAllInstances ctx_done awsInstances tfInstances filter
    (handle (build_tfMap tfInstances) filter <$> awsInstances)
  ∧ CompareAllInstances true awsInstances tfInstances filter [].
Proof.
  split; [|cancelled_run].
  eexists. split.
  - unfold start, maxWorkers. etrans.
    { apply step_is_step_or_cancel, worker_0_serves. reflexivity. }
    eapply rtc_l; [left; apply feeder_close|].
    all_workers worker_tasks_closed. finish_run.
  - reflexivity.
Qed.

(** The order of the results is not determined by the input: two instances
    may come back in either order. *)
Theorem results_order_not_determined (a b : EC2Instance) (tfInstances : list EC2Instance)
    (filter : gmap string bool) :
  CompareAllInstances_uncancelled [a; b] tfInstances filter
    [handle (build_tfMap tfInstances) filter a; handle (build_tfMap tfInstances) filter b]
  ∧ CompareAllInstances_uncancelled [a; b] tfInstances filter
      [handle (build_tfMap tfInstances) filter b; handle (build_tfMap tfInstances) filter a].
Proof.
  split.
  - eexists. split.
    + unfold start, maxWorkers.
      worker_step worker_receive 0. worker_step worker_send 0.
      worker_step worker_receive 0. worker_step worker_send 0.
      eapply rtc_l; [apply feeder_close|].
      all_workers worker_tasks_closed. finish_run.
    + reflexivity.
  - eexists. split.
    + unfold start, maxWorkers.
      worker_step worker_receive 0. worker_step worker_receive 1.
      worker_step worker_send 1. worker_step worker_send 0.
      eapply rtc_l; [apply feeder_close|].
      all_workers worker_tasks_closed. finish_run.
    + reflexivity.
Qed.

(** ** The older dispatcher *)

Lemma legacy_loop tfMap filter awsInstances : ∀ acc,
  foldl (legacy.loop_body tfMap filter) acc awsInstances
  = (acc.1 ++ legacy_missing tfMap awsInstances,
     acc.2 ++ (legacy.Sending <$> legacy_compared tfMap filter awsInstances)).
Proof.
  induction awsInstances as [|a rest IH]; intros [rs gs]; simpl.
  { by rewrite !app_nil_r. }
  rewrite IH. unfold legacy.loop_body, legacy_missing, legacy_compared. simpl.
  destruct (tfMap !! InstanceID a); simpl; by rewrite <- ?app_assoc.
Qed.

Lemma legacy_to_send_Sending rs : (legacy.Sending <$> rs) ≫= legacy_to_send = rs.
Proof. induction rs as [|r rs IH]; [done|]. rewrite fmap_cons, bind_cons, IH. done. Qed.

Lemma legacy_to_send_insert gs i r :
  gs !! i = Some (legacy.Sending r) →
  r :: (<[i := legacy.Finished]> gs ≫= legacy_to_send) ≡ₚ gs ≫= legacy_to_send.
Proof.
  revert i. induction gs as [|g gs IH]; intros [|i] Hi; simplify_eq/=; [done|].
  change (r :: (legacy_to_send g ++ (<[i := legacy.Finished]> gs ≫= legacy_to_send))
          ≡ₚ legacy_to_send g ++ (gs ≫= legacy_to_send)).
  rewrite <- (IH i Hi). by rewrite Permutation_middle.
Qed.

Lemma legacy_to_send_Finished gs :
  Forall (λ g, g = legacy.Finished) gs → gs ≫= legacy_to_send = [].
Proof. induction 1 as [|g gs -> _ IH]; [done|]. by rewrite bind_cons, IH. Qed.

Lemma legacy_safe_start awsInstances tfInstances filter :
  legacy_safe (legacy_missing (build_tfMap tfInstances) awsInstances)
    (legacy_compared (build_tfMap tfInstances) filter awsInstances)
    (legacy.start awsInstances tfInstances filter).
Proof.
  unfold legacy.start. rewrite legacy_loop. cbn [fst snd app legacy_safe]. split_and!; [|done|done].
  exists []. by rewrite app_nil_r, legacy_to_send_Sending.
Qed.

Lemma legacy_safe_step missing compared s s' :
  legacy_safe missing compared s → legacy.step s s' → legacy_safe missing compared s'.
Proof.
  intros Hs Hstep.
  destruct Hstep as [gs i r rs Hi|gs i r m Hi|gs m Hall|gs rs]; simpl in *;
    destruct Hs as ((sent & Hsent & Hperm) & Hcl & Hdone).
  - split_and!; [|done|done]. exists (sent ++ [r]). split.
    + by rewrite Hsent, app_assoc.
    + rewrite <- Hperm, <- (legacy_to_send_insert gs i r Hi). solve_Permutation.
  - specialize (Hcl eq_refl). by pose proof (Forall_lookup_1 _ _ _ _ Hcl Hi).
  - split_and!; eauto.
  - split_and!; eauto.
Qed.

Lemma legacy_safe_reachable awsInstances tfInstances filter s :
  rtc legacy.step (legacy.start awsInstances tfInstances filter) s →
  legacy_safe (legacy_missing (build_tfMap tfInstances) awsInstances)
    (legacy_compared (build_tfMap tfInstances) filter awsInstances) s.
Proof.
  revert s. apply rtc_ind_r; [apply legacy_safe_start|].
  intros y z _ Hstep IH. by eapply legacy_safe_step.
Qed.

Lemma legacy_weight_decreases s s' : legacy.step s s' → legacy_weight s' < legacy_weight s.
Proof.
  intros Hstep. destruct Hstep as [gs i r rs Hi|gs i r m Hi|gs m Hall|gs rs]; simpl; try lia.
  pose proof (legacy_to_send_insert gs i r Hi) as Hperm.
  apply Permutation_length in Hperm. simpl in Hperm. lia.
Qed.

Lemma legacy_terminates s : sn legacy.step s.
Proof.
  remember (legacy_weight s) as n eqn:Hn. revert s Hn.
  induction (lt_wf n) as [n _ IH]. intros s ->.
  constructor. intros s' Hs'. apply (IH (legacy_weight s')); [|done].
  by apply legacy_weight_decreases.
Qed.

Lemma legacy_progress s :
  s ≠ legacy.Panic → legacy.returned s = None → ∃ s', legacy.step s s'.
Proof.
  destruct s as [gs cl m|]; [|done]. intros _ Hret.
  destruct m as [rs|rs]; [|done].
  destruct cl; [eexists; apply legacy.collector_return|].
  destruct (decide (Forall (λ g, g = legacy.Finished) gs)) as [Hall|Hnot].
  { eexists. by apply legacy.closer_close. }
  apply not_Forall_Exists in Hnot; [|apply _].
  apply Exists_exists in Hnot as (g & [i Hi]%list_elem_of_lookup_1 & Hg).
  simpl in Hg. destruct g as [r|]; [|done].
  eexists. by eapply legacy.goroutine_send.
Qed.

(** The older dispatcher always returns, and returns one result per
    observed instance: first those of the instances missing in Terraform,
    in the order of the input, then those of the compared pairs in some
    order. *)
Theorem legacy_CompareAllInstances_results (awsInstances tfInstances : list EC2Instance)
    (filter : gmap string bool) :
  sn legacy.step (legacy.start awsInstances tfInstances filter)
  ∧ (∀ s, rtc legacy.step (legacy.start awsInstances tfInstances filter) s →
       s ≠ legacy.Panic ∧ (legacy.returned s = None → ∃ s', legacy.step s s'))
  ∧ ∀ rs, legacy.CompareAllInstances awsInstances tfInstances filter rs →
      length rs = length awsInstances
      ∧ ∃ compared,
          rs = legacy_missing (build_tfMap tfInstances) awsInstances ++ compared
          ∧ compared ≡ₚ legacy_compared (build_tfMap tfInstances) filter awsInstances.
Proof.
  split_and!.
  - apply legacy_terminates.
  - intros s Hs%legacy_safe_reachable.
    assert (s ≠ legacy.Panic) by (by intros ->). eauto using legacy_progress.
  - intros rs (s & Hrun%legacy_safe_reachable & Hret).
    destruct s as [gs cl [rs'|rs']|]; simplify_eq/=.
    destruct Hrun as ((sent & -> & Hperm) & Hcl & Hdone).
    rewrite (legacy_to_send_Finished gs), app_nil_r in Hperm by eauto.
    split; [|by exists sent].
    rewrite length_app, Hperm. unfold legacy_missing, legacy_compared.
    clear. induction awsInstances as [|a l IH]; [done|]. csimpl.
    destruct (build_tfMap tfInstances !! InstanceID a); csimpl; lia.
Qed.

Lemma legacy_split tfMap filter awsInstances :
  legacy_missing tfMap awsInstances ++ legacy_compared tfMap filter awsInstances
  ≡ₚ legacy_handle tfMap filter <$> awsInstances.
Proof.
  unfold legacy_missing, legacy_compared.
  induction awsInstances as [|a l IH]; [done|].
  rewrite fmap_cons, <- IH. unfold legacy_handle. csimpl.
  destruct (tfMap !! InstanceID a); csimpl; [|done].
  by rewrite <- Permutation_middle.
Qed.

Lemma verdict_handle tfMap filter awsInst :
  verdict (handle tfMap filter awsInst) = verdict (legacy_handle tfMap filter awsInst).
Proof.
  unfold handle, legacy_handle, verdict. destruct (tfMap !! InstanceID awsInst); [|done].
  f_equal.
  change (drift_detected (compareInstances awsInst e filter))
    with (bool_decide (0 < size (differences (compareInstances awsInst e filter)))).
  by rewrite differences_against_CompareInstances, map_size_fmap.
Qed.

(** The two dispatchers give the same verdicts: whatever the worker pool
    returns when it is not cancelled and whatever the older dispatcher
    returns carry, up to the order, the same identifiers with the same
    flags. *)
Theorem dispatchers_agree (awsInstances tfInstances : list EC2Instance)
    (filter : gmap string bool) (rs rs' : list DriftResult) :
  CompareAllInstances_uncancelled awsInstances tfInstances filter rs →
  legacy.CompareAllInstances awsInstances tfInstances filter rs' →
  verdict <$> rs ≡ₚ verdict <$> rs'.
Proof.
  intros (s & Hrun & Hret) (s' & Hrun'%legacy_safe_reachable & Hret').
  rewrite (returned_results_uncancelled _ _ _ _ _ Hrun Hret).
  destruct s' as [gs cl [rs''|rs'']|]; simplify_eq/=.
  destruct Hrun' as ((sent & -> & Hperm) & Hcl & Hdone).
  rewrite (legacy_to_send_Finished gs), app_nil_r in Hperm by eauto.
  rewrite Hperm, legacy_split, <- !list_fmap_compose.
  apply reflexive_eq, list_fmap_ext. intros ? a _. apply verdict_handle.
Qed.

Lemma dispatchers_agree_witness :
  CompareAllInstances_uncancelled [i_2] [] ∅ [missing_in_terraform i_2]
  ∧ legacy.CompareAllInstances [i_2] [] ∅ [missing_in_terraform_legacy i_2]
  ∧ verdict <$> [missing_in_terraform i_2] ≡ₚ verdict <$> [missing_in_terraform_legacy i_2].
Proof.
  assert (CompareAllInstances_uncancelled [i_2] [] ∅ [missing_in_terraform i_2]) as Hrun.
  { complete_run. }
  assert (legacy.CompareAllInstances [i_2] [] ∅ [missing_in_terraform_legacy i_2]) as Hrun'.
  { eexists. split.
    - eapply rtc_l; [apply legacy.closer_close; constructor|].
      eapply rtc_l; [apply legacy.collector_return|]. apply rtc_refl.
    - reflexivity. }
  split; [exact Hrun|]. split; [exact Hrun'|].
  exact (dispatchers_agree [i_2] [] ∅ _ _ Hrun Hrun').
Defined.


(** ** The command line: the list of names and the filter *)

Lemma ToMap_lookup (l : list string) (x : string) :
  ToMap l !! x = if decide (x ∈ l) then Some true else None.
Proof.
  unfold ToMap.
  assert (∀ m : gmap string bool, foldl (λ m item, <[item := true]> m) m l !! x
               = if decide (x ∈ l) then Some true else m !! x) as H.
  { induction l as [|a l IH]; intros m.
    - cbn [foldl]. destruct (decide (x ∈ [])) as [Hin|]; [by apply elem_of_nil in Hin|done].
    - cbn [foldl]. rewrite IH.
      destruct (decide (x ∈ l)) as [Hin|Hnin], (decide (x ∈ a :: l)) as [Hin'|Hnin'];
        try done; try set_solver.
      apply elem_of_cons in Hin' as [->|?]; [|done]. by rewrite lookup_insert_eq. 
      rewrite lookup_insert_ne; [done|]. set_solver. }
  rewrite H. by destruct (decide _).
Qed.

Lemma ToMap_empty_iff (l : list string) : ToMap l = ∅ ↔ l = [].
Proof.
  split; [|by intros ->].
  destruct l as [|a l]; [done|]. intros Hempty.
  pose proof (ToMap_lookup (a :: l) a) as Hl.
  rewrite Hempty, lookup_empty, decide_True in Hl by set_solver. done.
Qed.

Lemma shouldCompare_ToMap (l : list string) (field : string) :
  shouldCompare (ToMap l) field = true ↔ l = [] ∨ field ∈ l.
Proof.
  unfold shouldCompare, index. rewrite orb_true_iff, bool_decide_eq_true.
  rewrite map_size_empty_iff, ToMap_empty_iff, ToMap_lookup.
  destruct (decide (field ∈ l)); simpl; naive_solver.
Qed.

(** [ToMap] makes the lookup table of a list of names: a name reads as
    true exactly when it is listed, so that with this table as the filter
    a field is compared exactly when the list is empty or names it. *)
Theorem ToMap_shouldCompare (l : list string) (field : string) :
  (index (ToMap l) field = true ↔ field ∈ l)
  ∧ (shouldCompare (ToMap l) field = true ↔ l = [] ∨ field ∈ l).
Proof.
  split; [|apply shouldCompare_ToMap].
  unfold index. rewrite ToMap_lookup.
  destruct (decide (field ∈ l)); simpl; naive_solver.
Qed.

Lemma Split_not_nil s sep : Split s sep ≠ [].
Proof. destruct s as [|c s]; simpl; [done|]. destruct (decide _); [done|]. by destruct (Split s sep). Qed.

Lemma Split_without s sep : without sep s → Split s sep = [s].
Proof.
  unfold without. induction s as [|c s IH]; simpl; [done|]. intros Hnin.
  rewrite decide_False by set_solver. rewrite IH by set_solver. done.
Qed.

Lemma Split_app s1 s2 sep :
  without sep s1 → Split (s1 +:+ String sep s2) sep = s1 :: Split s2 sep.
Proof.
  unfold without. induction s1 as [|c s IH]; simpl.
  - intros _. by rewrite decide_True.
  - intros Hnin. rewrite decide_False by set_solver. rewrite IH by set_solver. done.
Qed.

Lemma Split_Join (l : list string) (sep : Ascii.ascii) :
  l ≠ [] → Forall (without sep) l → Split (Join l (String sep "")) sep = l.
Proof.
  induction l as [|a l IH]; [done|]. intros _ Hall.
  apply Forall_cons in Hall as [Ha Hl].
  destruct l as [|b l].
  - simpl. by apply Split_without.
  - change (Join (a :: b :: l) (String sep "")) with (a +:+ String sep (Join (b :: l) (String sep ""))).
    rewrite Split_app by done. by rewrite IH.
Qed.










Lemma trimmed_left_prefix s s' :
  s' `prefix_of` s → s' ≠ [] → trimmed_left s → trimmed_left s'.
Proof. intros Hpre _ Hs sp Hin Hsp. apply (Hs sp Hin). by etrans. Qed.




Lemma ParseCommaList_loop parts : ∀ result,
  foldl (λ result part,
           let trimmed := TrimSpace part in
           if decide (trimmed ≠ "") then append result (Some [trimmed]) else result)
        result parts
  = append result (Some (kept parts)).
Proof.
  unfold kept. induction parts as [|p parts IH]; intros result.
  - simpl. destruct result as [l|]; simpl; [by rewrite app_nil_r|done].
  - cbn [foldl]. rewrite IH. cbn zeta. rewrite fmap_cons, filter_cons.
    destruct (decide (TrimSpace p ≠ "")) as [Hne|Heq]; [|done].
    destruct result as [l|]; simpl.
    + by rewrite <- app_assoc.
    + done.
Qed.

Lemma ParseCommaList_kept input :
  ParseCommaList input
  = if decide (input = "") then None else append None (Some (kept (Split input ","%char))).
Proof. unfold ParseCommaList. destruct (decide _); [done|]. apply ParseCommaList_loop. Qed.




Lemma kept_id (l : list string) :
  Forall (λ name, name ≠ "" ∧ TrimSpace name = name) l → kept l = l.
Proof.
  unfold kept. induction 1 as [|a l [Hne Htrim] _ IH]; [done|].
  rewrite fmap_cons, filter_cons, Htrim. rewrite decide_True by done. by rewrite IH.
Qed.

Lemma Join_not_empty (l : list string) sep :
  l ≠ [] → Forall (λ name, name ≠ "") l → Join l sep ≠ "".
Proof.
  destruct l as [|a l]; [done|]. intros _ [Ha _]%Forall_cons.
  destruct l; simpl; [done|]. by destruct a.
Qed.

(** [ParseCommaList] after [strings.Join]: names that are non-empty, hold no
    comma and have no white space at either end come back as they are; the
    empty list comes back as the nil slice. *)
Theorem ParseCommaList_Join (names : list string) :
  Forall (λ name, name ≠ "" ∧ without ","%char name ∧ TrimSpace name = name) names →
  ParseCommaList (Join names ",") = if decide (names = []) then None else Some names.
Proof.
  intros Hall. destruct (decide (names = [])) as [->|Hne]; [done|].
  rewrite ParseCommaList_kept.
  rewrite decide_False.
  2:{ apply Join_not_empty; [done|]. eapply Forall_impl; [done|]. naive_solver. }
  rewrite (Split_Join names ","%char); [|done|].
  2:{ eapply Forall_impl; [done|]. naive_solver. }
  rewrite kept_id.
  2:{ eapply Forall_impl; [done|]. naive_solver. }
  unfold append, len. simpl. case_bool_decide as Hlen; [|done]. by destruct names.
Qed.

Lemma DefaultDriftAttributes_names :
  Forall (λ name, name ≠ "" ∧ without ","%char name ∧ TrimSpace name = name) DefaultDriftAttributes.
Proof.
  unfold DefaultDriftAttributes.
  repeat (constructor; [split_and!; [done| |by vm_compute]|]); [..|constructor];
    unfold without; vm_compute; intros Hin;
    repeat (apply elem_of_cons in Hin as [[=]|Hin]); by apply elem_of_nil in Hin.
Qed.

Lemma ParseCommaList_Join_witness :
  Forall (λ name, name ≠ "" ∧ without ","%char name ∧ TrimSpace name = name) DefaultDriftAttributes
  ∧ ParseCommaList (Join DefaultDriftAttributes ",")
    = if decide (DefaultDriftAttributes = []) then None else Some DefaultDriftAttributes.
Proof.
  split; [apply DefaultDriftAttributes_names|].
  apply (ParseCommaList_Join DefaultDriftAttributes), DefaultDriftAttributes_names.
Defined.

Lemma attributeFilter_default : attributeFilter "" = ToMap DefaultDriftAttributes.
Proof.
  apply map_eq. intros field. by vm_compute.
Qed.

Lemma differences_not_compared (awsInst tfInst : EC2Instance) (filter : gmap string bool) fld :
  shouldCompare filter fld = false →
  differences (compareInstances awsInst tfInst filter) !! fld = None.
Proof. intros Hsc. unfold compareInstances; cbn [differences]. keep_absent. Qed.

(** Without [--attributes] the fields compared are those of
    [DefaultDriftAttributes]; [vpc_id], which the comparator knows, is not
    among them and never reported. *)
Theorem default_attributes (awsInst tfInst : EC2Instance) (field : string) :
  (shouldCompare (attributeFilter "") field = true ↔ field ∈ DefaultDriftAttributes)
  ∧ differences (compareInstances awsInst tfInst (attributeFilter "")) !! "vpc_id" = None.
Proof.
  rewrite attributeFilter_default. split.
  - rewrite shouldCompare_ToMap. unfold DefaultDriftAttributes. naive_solver.
  - apply differences_not_compared.
    apply not_true_is_false. rewrite shouldCompare_ToMap.
    unfold DefaultDriftAttributes. intros [[=]|Hin].
    repeat (apply elem_of_cons in Hin as [[=]|Hin]). by apply elem_of_nil in Hin.
Qed.

(** An [--attributes] value that is not empty but names nothing, such as a
    lone comma, gives the empty filter, under which every field is
    compared: more than without the flag. *)
Theorem blank_attributes (attrInput field : string) :
  attrInput ≠ "" → ParseCommaList attrInput = None →
  attributeFilter attrInput = ∅ ∧ shouldCompare (attributeFilter attrInput) field = true.
Proof.
  intros Hne Hnil. unfold attributeFilter. rewrite decide_False by done. cbn zeta.
  by rewrite Hnil.
Qed.

Lemma blank_attributes_witness :
  " , " ≠ "" ∧ ParseCommaList " , " = None
  ∧ attributeFilter " , " = ∅ ∧ shouldCompare (attributeFilter " , ") "vpc_id" = true.
Proof.
  assert (" , " ≠ "") as Hne by done.
  assert (ParseCommaList " , " = None) as Hnil by (by vm_compute).
  split; [exact Hne|]. split; [exact Hnil|].
  exact (blank_attributes " , " "vpc_id" Hne Hnil).
Defined.


(** ** The helpers of the parser, the two parsers and the AWS client *)

Module parser_facts.
Import terraform.

Section helper_facts.
Context {number : Type} (format_number : number → string).

Lemma append_one {A} (s : option (list A)) (x : A) : append s (Some [x]) = Some (elems s ++ [x]).
Proof. by destruct s. Qed.

Lemma append_loop {A B} (f : B → A) (l : list B) : ∀ s : option (list A),
  l ≠ [] → foldl (λ s x, append s (Some [f x])) s l = Some (elems s ++ (f <$> l)).
Proof.
  induction l as [|x l IH]; [done|]. intros s _. cbn [foldl]. rewrite append_one.
  destruct l as [|y l]; [done|]. rewrite IH by done. cbn [elems default from_option id].
  by rewrite <- app_assoc.
Qed.

Lemma append_loop_elems {A B} (f : B → A) (l : list B) (s : option (list A)) :
  elems (foldl (λ s x, append s (Some [f x])) s l) = elems s ++ (f <$> l).
Proof.
  destruct l as [|x l]; [by rewrite app_nil_r|]. by rewrite append_loop.
Qed.

Lemma ConvertToStringSlice_elems (v : value number) :
  elems (ConvertToStringSlice format_number v)
  = match v with JArray arr => Sprintf_v format_number <$> arr | _ => [] end.
Proof.
  destruct v as [| | | |arr|]; try done.
  unfold ConvertToStringSlice. cbv zeta. by rewrite append_loop_elems.
Qed.

Lemma ExtractBlockDevices_loop (l : list (value number)) :
  ∀ acc : option (list BlockDeviceMapping), is_Some acc →
  is_Some (foldl (λ result item,
                    match item with
                    | JObject m =>
                        append result
                          (Some [ {| DeviceName := ToString (at_key m "device_name");
                                     VolumeID := ToString (at_key m "volume_id") |} ])
                    | _ => result
                    end) acc l).
Proof.
  induction l as [|item l IH]; intros acc Hacc; [done|].
  cbn [foldl]. destruct item; try by apply IH.
  apply IH. rewrite append_one. by eexists.
Qed.

Lemma ExtractBlockDevices_Some (v : value number) : is_Some (ExtractBlockDevices v).
Proof.
  destruct v as [| | | |l|]; try by eexists.
  apply ExtractBlockDevices_loop. by eexists.
Qed.

(** The three conversions of collections: [ConvertToStringMap] and
    [ExtractBlockDevices] never return nil, whatever the value;
    [ConvertToStringSlice] returns nil for a value that is not an array and
    for the empty array, and one string per element otherwise. *)
Theorem conversions_nil (v : value number) :
  is_Some (ConvertToStringMap format_number v)
  ∧ is_Some (ExtractBlockDevices v)
  ∧ (ConvertToStringSlice format_number v = None
     ↔ ∀ arr, v = JArray arr → arr = [])
  ∧ ConvertToStringSlice format_number v ≠ Some []
  ∧ ∀ arr, v = JArray arr →
      elems (ConvertToStringSlice format_number v) = Sprintf_v format_number <$> arr.
Proof.
  split_and!.
  - destruct v; by eexists.
  - apply ExtractBlockDevices_Some.
  - destruct v as [| | | |arr|]; try (split; [congruence|done]).
    unfold ConvertToStringSlice. cbv zeta. destruct arr as [|x arr].
    + split; [congruence|done].
    + rewrite append_loop by done. split; [done|]. intros Harr. by specialize (Harr _ eq_refl).
  - destruct v as [| | | |arr|]; try done.
    unfold ConvertToStringSlice. cbv zeta. destruct arr as [|x arr]; [done|].
    by rewrite append_loop.
  - intros arr ->. apply ConvertToStringSlice_elems.
Qed.

(** *** The parser *)

Lemma append_append {A} (s : option (list A)) (l1 l2 : list A) :
  append (append s (Some l1)) (Some l2) = append s (Some (l1 ++ l2)).
Proof.
  destruct s as [l|]; simpl; [by rewrite app_assoc|].
  unfold len. simpl. destruct l1 as [|x l1]; simpl; [done|]. done.
Qed.

Lemma append_nil {A} (s : option (list A)) : append s (Some []) = s.
Proof. destruct s; simpl; [by rewrite app_nil_r|done]. Qed.

Lemma append_loop' {A B} (f : B → A) (l : list B) : ∀ s : option (list A),
  foldl (λ s x, append s (Some [f x])) s l = append s (Some (f <$> l)).
Proof.
  induction l as [|x l IH]; intros s; cbn [foldl].
  - symmetry. apply (append_nil s).
  - rewrite IH, append_append. done.
Qed.

Lemma instances_of_declared (state : TerraformState number) :
  instances_of format_number state
  = append None (Some (ec2Inst format_number <$> declared_attributes state)).
Proof.
  unfold instances_of, declared_attributes. generalize (@None (list EC2Instance)).
  induction (elems (Resources state)) as [|res l IH]; intros acc.
  - symmetry. apply (append_nil acc).
  - cbn [foldl]. rewrite IH, bind_cons, fmap_app, <- append_append. f_equal.
    destruct (decide (Type_ res ≠ "aws_instance")) as [Hne|Heq]; [symmetry; apply (append_nil acc)|].
    rewrite (append_loop' (λ inst, ec2Inst format_number (Attributes inst))).
    by rewrite <- list_fmap_compose.
Qed.

Lemma elems_append_None {A} (l : list A) : elems (append None (Some l)) = l.
Proof. unfold append, len. simpl. case_bool_decide as Hlen; [|done]. by destruct l. Qed.

Lemma append_None_nil {A} (l : list A) : append None (Some l) = None ↔ l = [].
Proof.
  unfold append, len. simpl. case_bool_decide as Hlen.
  - destruct l; [done|]. simpl in Hlen. lia.
  - split; [done|]. by intros ->.
Qed.

(** [parseTerraformState]: an error comes with no instances; a decoded
    state is an error exactly when it has no resource at all; otherwise
    the instances of the [aws_instance] resources are returned in the order
    of the state, and the nil slice when there is none. *)
Theorem parseTerraformState_result (f : file number) :
  let '(instances, err) := parseTerraformState format_number f in
  (is_Some err → instances = None)
  ∧ ∀ state, f = Decoded state →
      (err = Some ErrTerraformInstanceMissing ↔ len (Resources state) = 0)
      ∧ (err = None ↔ len (Resources state) ≠ 0)
      ∧ (err = None →
           elems instances = ec2Inst format_number <$> declared_attributes state
           ∧ (instances = None ↔ declared_attributes state = [])).
Proof.
  destruct f as [| |state]; simpl; try (split; [done|]; by intros ? [=]).
  destruct (decide (len (Resources state) = 0)) as [Hlen|Hlen].
  - split; [done|]. intros ? [= <-]. by split_and!.
  - split; [by intros [? [=]]|]. intros ? [= <-]. split_and!; [by split|by split|].
    intros _. rewrite instances_of_declared, elems_append_None, append_None_nil.
    split; [done|]. split; [by intros ?%fmap_nil_inv|by intros ->].
Qed.

(** The older [ParseTerraformState] returns the same instances for every
    file; it differs in the error only, and has none for a decoded state
    without resources. *)
Theorem ParseTerraformState_against_current (f : file number) :
  (ParseTerraformState format_number f).1 = (parseTerraformState format_number f).1
  ∧ (is_Some (parseTerraformState format_number f).2
     ↔ is_Some (ParseTerraformState format_number f).2
       ∨ ∃ state, f = Decoded state ∧ len (Resources state) = 0).
Proof.
  destruct f as [| |state]; simpl.
  - split; [done|]. split; eauto.
  - split; [done|]. split; eauto.
  - destruct (decide (len (Resources state) = 0)) as [Hlen|Hlen]; simpl.
    + split.
      * rewrite instances_of_declared. unfold declared_attributes.
        unfold len in Hlen. apply nil_length_inv in Hlen. by rewrite Hlen.
      * split; eauto.
    + split; [done|]. split; [by intros [? [=]]|].
      intros [[? [=]]|(? & [= <-] & ?)]. done.
Qed.

(** What the parser never fills, and what it always fills: an instance it
    returns has the empty [State] and [VpcID], and non-nil [Tags] and
    [BlockDeviceMappings]. *)
Theorem parsed_instance (f : file number) (tfInst : EC2Instance) :
  tfInst ∈ elems (parseTerraformState format_number f).1 →
  common.State tfInst = "" ∧ VpcID tfInst = ""
  ∧ is_Some (common.Tags tfInst) ∧ is_Some (common.BlockDeviceMappings tfInst)
  ∧ common.SecurityGroups tfInst ≠ Some [].
Proof.
  destruct f as [| |state]; simpl; try by intros ?%elem_of_nil.
  destruct (decide _); simpl; [by intros ?%elem_of_nil|].
  rewrite instances_of_declared, elems_append_None.
  intros (attr & -> & _)%list_elem_of_fmap. simpl.
  split_and!; try done.
  - by destruct (attribute attr "tags"); eexists.
  - apply ExtractBlockDevices_Some.
  - destruct (attribute attr "vpc_security_group_ids") as [| | | |[|x arr]|]; try done.
    unfold ConvertToStringSlice. cbv zeta. by rewrite append_loop.
Qed.

End helper_facts.

Lemma web_declared_parsed :
  web_declared ∈ elems (parseTerraformState no_number (Decoded web_state)).1.
Proof. vm_compute. left. Defined.

Lemma parsed_instance_witness :
  web_declared ∈ elems (parseTerraformState no_number (Decoded web_state)).1
  ∧ common.State web_declared = "" ∧ VpcID web_declared = ""
  ∧ is_Some (common.Tags web_declared) ∧ is_Some (common.BlockDeviceMappings web_declared)
  ∧ common.SecurityGroups web_declared ≠ Some [].
Proof.
  split; [exact web_declared_parsed|].
  exact (parsed_instance no_number (Decoded web_state) web_declared web_declared_parsed).
Defined.

(** *** The AWS client *)

Lemma append_not_empty {A} (s : option (list A)) (x : A) : append s (Some [x]) ≠ Some [].
Proof. rewrite append_one. intros [= Heq]. by destruct (elems s). Qed.

Lemma sgIDs_not_empty (instance : ec2.Instance) : aws.sgIDs instance ≠ Some [].
Proof.
  unfold aws.sgIDs.
  assert (@None (list string) ≠ Some []) as Hacc by done.
  revert Hacc. generalize (@None (list string)).
  induction (elems (ec2.SecurityGroups instance)) as [|sg l IH]; intros acc Hacc; [done|].
  cbn [foldl]. apply IH. destruct (ec2types.GroupId sg); [apply append_not_empty|done].
Qed.

Lemma bdms_not_empty (instance : ec2.Instance) : aws.bdms instance ≠ Some [].
Proof.
  unfold aws.bdms.
  assert (@None (list BlockDeviceMapping) ≠ Some []) as Hacc by done.
  revert Hacc. generalize (@None (list BlockDeviceMapping)).
  induction (elems (ec2.BlockDeviceMappings instance)) as [|mapping l IH];
    intros acc Hacc; [done|].
  cbn [foldl]. apply IH. cbv zeta.
  destruct (ec2types.DeviceName mapping); [apply append_not_empty|done].
Qed.

(** [GetInstanceFromClient] panics in two cases, and in no other: the
    client returns neither an output nor an error, or the first instance
    of the first reservation has no [State]. *)
Theorem GetInstanceFromClient_panics (client : aws.EC2Client) (instanceID : string) :
  aws.GetInstanceFromClient client instanceID = aws.Panic
  ↔ client [instanceID] = (None, None)
    ∨ ∃ output reservation reservations instance instances,
        client [instanceID] = (Some output, None)
        ∧ elems (ec2.Reservations output) = reservation :: reservations
        ∧ elems (ec2.Instances reservation) = instance :: instances
        ∧ ec2.State instance = None.
Proof.
  unfold aws.GetInstanceFromClient.
  destruct (client [instanceID]) as [[output|] [err|]].
  - split; [done|]. intros [[=]|(? & ? & ? & ? & ? & [=] & _)].
  - destruct (elems (ec2.Reservations output)) as [|reservation reservations] eqn:Hres.
    { split; [done|]. intros [[=]|(? & ? & ? & ? & ? & [= <-] & Hres' & _)]. congruence. }
    destruct (elems (ec2.Instances reservation)) as [|instance instances] eqn:Hinst.
    { split; [done|]. intros [[=]|(? & ? & ? & ? & ? & [= <-] & Hres' & Hinst' & _)].
      congruence. }
    unfold aws.ec2Inst. destruct (ec2.State instance) as [state|] eqn:Hstate; simpl.
    + split; [done|]. intros [[=]|(? & ? & ? & ? & ? & [= <-] & Hres' & Hinst' & Hstate')].
      congruence.
    + split; [|done]. intros _. right. by eexists _, _, _, _, _.
  - split; [done|]. intros [[=]|(? & ? & ? & ? & ? & [=] & _)].
  - split; [by left|done].
Qed.

(** When [GetInstanceFromClient] returns, it returns an instance or an
    error, never both and never neither; the instance is the first of the
    first reservation, whatever identifier was asked for, its [Tags] are
    not nil, and its two slices are nil when they have no element. *)
Theorem GetInstanceFromClient_returns (client : aws.EC2Client) (instanceID : string)
    (inst : option EC2Instance) (err : option aws.error) :
  aws.GetInstanceFromClient client instanceID = aws.Return inst err →
  (is_Some inst ↔ err = None)
  ∧ ∀ awsInst, inst = Some awsInst →
      (∃ output reservation reservations instance instances,
         client [instanceID] = (Some output, None)
         ∧ elems (ec2.Reservations output) = reservation :: reservations
         ∧ elems (ec2.Instances reservation) = instance :: instances
         ∧ aws.ec2Inst instance = Some awsInst)
      ∧ is_Some (common.Tags awsInst)
      ∧ common.SecurityGroups awsInst ≠ Some []
      ∧ common.BlockDeviceMappings awsInst ≠ Some [].
Proof.
  unfold aws.GetInstanceFromClient.
  destruct (client [instanceID]) as [[output|] [err'|]]; try done.
  - intros [= <- <-]. split; [split; [by intros [? [=]]|done]|done].
  - destruct (elems (ec2.Reservations output)) as [|reservation reservations] eqn:Hres.
    { intros [= <- <-]. split; [split; [by intros [? [=]]|done]|done]. }
    destruct (elems (ec2.Instances reservation)) as [|instance instances] eqn:Hinst.
    { intros [= <- <-]. split; [split; [by intros [? [=]]|done]|done]. }
    destruct (aws.ec2Inst instance) as [awsInst|] eqn:Hconv; [|done].
    intros [= <- <-]. split; [split; [done|by eexists]|].
    intros ? [= <-]. split; [by eexists _, _, _, _, _|].
    unfold aws.ec2Inst in Hconv. destruct (ec2.State instance); simplify_eq/=.
    split_and!; [by eexists|apply sgIDs_not_empty|apply bdms_not_empty].
  - intros [= <- <-]. split; [split; [by intros [? [=]]|done]|done].
Qed.

Lemma web_observed_returned :
  aws.GetInstanceFromClient web_client "i-1" = aws.Return (Some web_observed) None.
Proof. vm_compute. reflexivity. Defined.

Lemma GetInstanceFromClient_returns_witness :
  aws.GetInstanceFromClient web_client "i-1" = aws.Return (Some web_observed) None
  ∧ (is_Some (Some web_observed) ↔ @None aws.error = None)
  ∧ ∀ awsInst, Some web_observed = Some awsInst →
      (∃ output reservation reservations instance instances,
         web_client ["i-1"] = (Some output, None)
         ∧ elems (ec2.Reservations output) = reservation :: reservations
         ∧ elems (ec2.Instances reservation) = instance :: instances
         ∧ aws.ec2Inst instance = Some awsInst)
      ∧ is_Some (common.Tags awsInst)
      ∧ common.SecurityGroups awsInst ≠ Some []
      ∧ common.BlockDeviceMappings awsInst ≠ Some [].
Proof.
  split; [exact web_observed_returned|].
  exact (GetInstanceFromClient_returns web_client "i-1" _ _ web_observed_returned).
Defined.

Section pipeline.
Context {number : Type} (format_number : number → string).

(** The parser never reads a VPC: when [vpc_id] is compared, an observed
    instance that has one drifts against every instance of the state. *)
Theorem parsed_vpc_id_drifts (f : file number) (awsInst tfInst : EC2Instance)
    (filter : gmap string bool) :
  tfInst ∈ elems (parseTerraformState format_number f).1 →
  shouldCompare filter "vpc_id" = true →
  VpcID awsInst ≠ "" →
  differences (compareInstances awsInst tfInst filter) !! "vpc_id"
    = Some {| AWS := AString (VpcID awsInst); Terraform := AString "" |}
  ∧ drift_detected (compareInstances awsInst tfInst filter) = true.
Proof.
  intros Hin Hsc Hvpc.
  assert (VpcID tfInst = "") as Htf.
  { destruct f as [| |state]; simpl in Hin; try by apply elem_of_nil in Hin.
    destruct (decide _); simpl in Hin; [by apply elem_of_nil in Hin|].
    rewrite instances_of_declared, elems_append_None in Hin.
    by apply list_elem_of_fmap in Hin as (attr & -> & _). }
  assert (differences (compareInstances awsInst tfInst filter) !! "vpc_id"
          = Some {| AWS := AString (VpcID awsInst); Terraform := AString "" |}) as Hd.
  { rewrite differences_vpc_id. unfold scalar_diff. rewrite Hsc, Htf.
    by rewrite bool_decide_eq_true_2. }
  split; [done|]. eapply drift_detected_entry. by rewrite Hd.
Qed.

(** Between an instance of the client and one of the parser the tags are
    two non-nil maps, so that they are reported exactly when compared and
    different as maps: an instance without tags on both sides has no
    [tags] entry. *)
Theorem pipeline_tags (client : aws.EC2Client) (instanceID : string) (f : file number)
    (awsInst tfInst : EC2Instance) (filter : gmap string bool) :
  aws.GetInstanceFromClient client instanceID = aws.Return (Some awsInst) None →
  tfInst ∈ elems (parseTerraformState format_number f).1 →
  ∃ observed declared,
    common.Tags awsInst = Some observed ∧ common.Tags tfInst = Some declared
    ∧ (is_Some (differences (compareInstances awsInst tfInst filter) !! "tags")
       ↔ shouldCompare filter "tags" = true ∧ observed ≠ declared).
Proof.
  intros Haws Hin.
  assert (is_Some (common.Tags awsInst)) as [observed Hobserved].
  { unfold aws.GetInstanceFromClient in Haws.
    destruct (client [instanceID]) as [[output|] [err'|]]; try done.
    destruct (elems (ec2.Reservations output)) as [|reservation reservations]; [done|].
    destruct (elems (ec2.Instances reservation)) as [|instance instances]; [done|].
    unfold aws.ec2Inst in Haws. destruct (ec2.State instance); simplify_eq/=. by eexists. }
  assert (is_Some (common.Tags tfInst)) as [declared Hdeclared].
  { destruct f as [| |state]; simpl in Hin; try by apply elem_of_nil in Hin.
    destruct (decide _); simpl in Hin; [by apply elem_of_nil in Hin|].
    rewrite instances_of_declared, elems_append_None in Hin.
    apply list_elem_of_fmap in Hin as (attr & -> & _). simpl.
    by destruct (attribute attr "tags"); eexists. }
  exists observed, declared. split_and!; [done|done|].
  rewrite differences_tags, Hobserved, Hdeclared. simpl.
  destruct (shouldCompare filter "tags"); simpl; [|split; [by intros [? [=]]|by intros [[=] _]]].
  case_bool_decide as Heq; simpl.
  - split; [by intros [? [=]]|]. by intros [_ ?].
  - split; [done|]. by eexists.
Qed.

End pipeline.

Lemma parsed_vpc_id_drifts_witness :
  web_declared ∈ elems (parseTerraformState no_number (Decoded web_state)).1
  ∧ shouldCompare ∅ "vpc_id" = true
  ∧ VpcID web_observed ≠ ""
  ∧ differences (compareInstances web_observed web_declared ∅) !! "vpc_id"
    = Some {| AWS := AString (VpcID web_observed); Terraform := AString "" |}
  ∧ drift_detected (compareInstances web_observed web_declared ∅) = true.
Proof.
  assert (shouldCompare ∅ "vpc_id" = true) as Hsc by reflexivity.
  assert (VpcID web_observed ≠ "") as Hvpc by discriminate.
  split; [exact web_declared_parsed|]. split; [exact Hsc|]. split; [exact Hvpc|].
  exact (parsed_vpc_id_drifts no_number (Decoded web_state) web_observed web_declared ∅
           web_declared_parsed Hsc Hvpc).
Defined.

Lemma pipeline_tags_witness :
  aws.GetInstanceFromClient web_client "i-1" = aws.Return (Some web_observed) None
  ∧ web_declared ∈ elems (parseTerraformState no_number (Decoded web_state)).1
  ∧ ∃ observed declared,
      common.Tags web_observed = Some observed ∧ common.Tags web_declared = Some declared
      ∧ (is_Some (differences (compareInstances web_observed web_declared ∅) !! "tags")
         ↔ shouldCompare ∅ "tags" = true ∧ observed ≠ declared).
Proof.
  split; [exact web_observed_returned|]. split; [exact web_declared_parsed|].
  exact (pipeline_tags no_number web_client "i-1" (Decoded web_state) web_observed web_declared ∅
           web_observed_returned web_declared_parsed).
Defined.

End parser_facts.
